(** * moego/pkg/core: the typed state-graph engine

    A shallow embedding of the execution engine of [pkg/core]: the graph
    builder ([StateGraph]), the streamer ([Streamer]), the interrupt and
    breakpoint controller ([InterruptManager]) and the step/route loop
    [RunnableState.Invoke].

    Conventions of the embedding.
    - Go's [int] is [Z]; the step counter never gets near the machine bound
      in fewer than 2^63 iterations, so its wrap-around is not written out.
    - A Go [error] that may be [nil] is an [option error].
    - A channel is modelled by what is sent on it: every send appends an
      observation to the chronological trace of the run.  The channels of
      the streamer and the interrupt channel are assumed to have a receiver
      (a send with no receiver blocks the goroutine for ever).
    - User closures (step functions, routers) may capture variables; the
      captured environment is a value of type [W] threaded through calls.
    - The party that calls [Resume] runs in another goroutine; its actions
      are a script consumed while the engine waits in [WaitForResume].
    - [Event.RunID] and [Event.Timestamp] come from the wall clock and are
      left out of [Event]. *)

From stdpp Require Import base gmap strings list pretty.
From Stdlib Require Import ZArith Lia Floats Uint63.

Local Open Scope string_scope.
Local Open Scope list_scope.

(** ** Go types: zero value and JSON encoding *)

(** [json.RawMessage] *)
Definition RawMessage := list Byte.byte.

(** What the engine uses of a Go type [A]: [var zero A] and
    [json.Marshal], which returns the bytes or fails with a message. *)
Class GoType (A : Type) := {
  zero : A;
  json_Marshal : A -> RawMessage + string
}.

(** The two reserved node names.  Their declaration is not among the
    sources; the engine only compares the current node with [END]. *)
Class Sentinels := {
  START : string;
  END : string
}.

(** ** stream.go *)

Definition StreamMode := string.
Definition StreamValues : StreamMode := "values".
Definition StreamUpdates : StreamMode := "updates".
Definition StreamCustom : StreamMode := "custom".
Definition StreamMessages : StreamMode := "messages".
Definition StreamDebug : StreamMode := "debug".

Definition EventType := string.
Definition EventChainStart : EventType := "on_chain_start".
Definition EventChainEnd : EventType := "on_chain_end".

(** [Metadata] holds, when present, the two keys the engine writes:
    [langgraph_step] and [langgraph_node]. *)
Record Event := {
  Event_Type : EventType;
  Event_Name : string;
  Event_Metadata : option (Z * string)
}.

Record StreamConfig := {
  Modes : list StreamMode;
  BufferSize : Z
}.

Definition DefaultStreamConfig : StreamConfig :=
  {| Modes := [StreamValues]; BufferSize := 100 |}.

Record Streamer := { modes : list StreamMode }.

Definition NewStreamer (ms : list StreamMode) : Streamer := {| modes := ms |}.

Fixpoint hasMode_in (ms : list StreamMode) (mode : StreamMode) : bool :=
  match ms with
  | [] => false
  | m :: rest => if String.eqb m mode then true else hasMode_in rest mode
  end.

Definition hasMode (s : Streamer) (mode : StreamMode) : bool :=
  hasMode_in (modes s) mode.

(** ** interrupt.go: data *)

Record InterruptInfo := {
  NodeName : string;
  Data : RawMessage;
  State : RawMessage
}.

Record InterruptManager := {
  interrupted : bool;
  breakpoints : gset string
}.

Definition NewInterruptManager : InterruptManager :=
  {| interrupted := false; breakpoints := ∅ |}.

Definition AddBreakpoint (m : InterruptManager) (nodeName : string) : InterruptManager :=
  {| interrupted := interrupted m; breakpoints := {[nodeName]} ∪ breakpoints m |}.

Definition RemoveBreakpoint (m : InterruptManager) (nodeName : string) : InterruptManager :=
  {| interrupted := interrupted m; breakpoints := breakpoints m ∖ {[nodeName]} |}.

Definition HasBreakpoint (m : InterruptManager) (nodeName : string) : bool :=
  bool_decide (nodeName ∈ breakpoints m).

Section Engine.

(** [T] is the state type, [Any] is [interface{}] (its zero value is
    [nil]), [Ctx] is [context.Context], [W] the environment captured by
    the user's closures. *)
Context {T Any Ctx W : Type}.
Context `{GoT : GoType T} `{GoAny : GoType Any} `{Names : Sentinels}.

(** *** Errors *)

Inductive error :=
| ErrOther (msg : string)
    (* an error made outside the engine: user code, ctx.Err(), encoding/json *)
| InterruptError (data : Any)
    (* &InterruptError{Data: data} *)
| ErrAlreadyInterrupted
    (* errors.New("already interrupted") *)
| ErrNotInterrupted
    (* errors.New("not interrupted") *)
| ErrEntryPointNotSet
| ErrRecursionLimit (limit : Z)
    (* "recursion limit (%d) exceeded" *)
| ErrTriggerBreakpoint (cause : error)
    (* "error triggering breakpoint: %w" *)
| ErrTriggerInterrupt (cause : error)
    (* "error triggering interrupt: %w" *)
| ErrWaitResume (cause : error)
    (* "error waiting for resume: %w" *)
| ErrNodeNotFound (node : string)
    (* "%w: %s", ErrNodeNotFound, currentNode *)
| ErrInNode (node : string) (cause : error)
    (* "error in node %s: %w" *)
| ErrInRouter (node : string) (cause : error)
    (* "error in router for node %s: %w" *)
| ErrInvalidRouterOutput
    (* "%w: router returned no nodes", ErrInvalidRouterOutput *)
| ErrNoOutgoingEdge (node : string).
    (* "%w: %s", ErrNoOutgoingEdge, currentNode *)

(** The type assertion to a pointer to [InterruptError] succeeds on that
    type itself only: a wrapped interrupt error is not recognised. *)
Definition IsInterruptError (err : error) : bool :=
  match err with
  | InterruptError _ => true
  | _ => false
  end.

Definition GetInterruptData (err : error) : Any * bool :=
  match err with
  | InterruptError d => (d, true)
  | _ => (zero, false)
  end.

(** The generic function [Interrupt], the helper offered to step
    functions (the method of the manager has the name in this file). *)
Definition Interrupt_helper (ctx : Ctx) (data : Any) : T * option error :=
  (zero, Some (InterruptError data)).

(** *** Graph definition *)

Record StateNode := {
  Name : string;
  Function : Ctx -> T -> W -> (T * option error) * W
}.

Definition Router := T -> W -> (list string * option error) * W.

(** The field [Router] of the source is [Route] here, the type keeping the
    name. *)
Record ConditionalEdge := {
  From : string;
  Route : Router;
  Mapping : option (gmap string string)
}.

Record StateGraph := {
  nodes : gmap string StateNode;
  edges : list ConditionalEdge;
  entryPoint : string;
  recursionLimit : Z;
  interruptManager : InterruptManager;
  streamer : Streamer;
  streamConfig : StreamConfig
}.

Definition NewStateGraph : StateGraph :=
  let config := DefaultStreamConfig in
  {| nodes := ∅;
     edges := [];
     entryPoint := "";
     recursionLimit := 25;
     interruptManager := NewInterruptManager;
     streamer := NewStreamer (Modes config);
     streamConfig := config |}.

Definition SetStreamConfig (g : StateGraph) (config : StreamConfig) : StateGraph :=
  {| nodes := nodes g; edges := edges g; entryPoint := entryPoint g;
     recursionLimit := recursionLimit g; interruptManager := interruptManager g;
     streamer := NewStreamer (Modes config);
     streamConfig := config |}.

Definition AddNode (g : StateGraph) (name : string)
    (fn : Ctx -> T -> W -> (T * option error) * W) : StateGraph :=
  {| nodes := <[name := {| Name := name; Function := fn |}]> (nodes g);
     edges := edges g; entryPoint := entryPoint g;
     recursionLimit := recursionLimit g; interruptManager := interruptManager g;
     streamer := streamer g; streamConfig := streamConfig g |}.

Definition AddConditionalEdges (g : StateGraph) (from : string) (router : Router)
    (mapping : option (gmap string string)) : StateGraph :=
  {| nodes := nodes g;
     edges := edges g ++ [{| From := from; Route := router; Mapping := mapping |}];
     entryPoint := entryPoint g;
     recursionLimit := recursionLimit g; interruptManager := interruptManager g;
     streamer := streamer g; streamConfig := streamConfig g |}.

Definition SetEntryPoint (g : StateGraph) (name : string) : StateGraph :=
  {| nodes := nodes g; edges := edges g; entryPoint := name;
     recursionLimit := recursionLimit g; interruptManager := interruptManager g;
     streamer := streamer g; streamConfig := streamConfig g |}.

Definition SetRecursionLimit (g : StateGraph) (limit : Z) : StateGraph :=
  {| nodes := nodes g; edges := edges g; entryPoint := entryPoint g;
     recursionLimit := limit; interruptManager := interruptManager g;
     streamer := streamer g; streamConfig := streamConfig g |}.

Definition set_interruptManager (g : StateGraph) (m : InterruptManager) : StateGraph :=
  {| nodes := nodes g; edges := edges g; entryPoint := entryPoint g;
     recursionLimit := recursionLimit g; interruptManager := m;
     streamer := streamer g; streamConfig := streamConfig g |}.

(** [StateGraph.AddBreakpoint] and [StateGraph.RemoveBreakpoint]; the
    plain names are those of the manager's methods. *)
Definition Graph_AddBreakpoint (g : StateGraph) (nodeName : string) : StateGraph :=
  set_interruptManager g (AddBreakpoint (interruptManager g) nodeName).

Definition Graph_RemoveBreakpoint (g : StateGraph) (nodeName : string) : StateGraph :=
  set_interruptManager g (RemoveBreakpoint (interruptManager g) nodeName).

Record RunnableState := { graph : StateGraph }.

Definition Compile (g : StateGraph) : option RunnableState * option error :=
  if String.eqb (entryPoint g) "" then (None, Some ErrEntryPointNotSet)
  else (Some {| graph := g |}, None).

(** *** What a run does: the trace *)

Record StreamEvent := {
  Mode : StreamMode;
  Payload : T
}.

Inductive obs :=
| SendStream (e : StreamEvent)      (* s.streamCh <- StreamEvent{...} *)
| SendEvent (e : Event)             (* s.eventCh <- evt *)
| SendInterrupt (i : InterruptInfo) (* m.interruptCh <- info *)
| CallNode (name : string) (input : T)    (* node.Function(ctx, state) *)
| CallRouter (from : string) (input : T). (* edge.Router(state) *)

(** What the goroutine holding the other end of the rendezvous does while
    the engine waits. *)
Inductive ctl_action :=
| CtlAddBreakpoint (nodeName : string)
| CtlRemoveBreakpoint (nodeName : string)
| CtlResume (state : T)
| CtlCancel (cause : string). (* ctx is cancelled; ctx.Err() has this text *)

(** The mutable part of a run. *)
Record Run := {
  mgr : InterruptManager;
  world : W;
  ctl : list ctl_action;
  trace : list obs
}.

Definition send (o : obs) (r : Run) : Run :=
  {| mgr := mgr r; world := world r; ctl := ctl r; trace := trace r ++ [o] |}.

Definition set_world (w : W) (r : Run) : Run :=
  {| mgr := mgr r; world := w; ctl := ctl r; trace := trace r |}.

(** *** Streamer emission *)

Definition EmitEvent (s : Streamer) (evt : Event) (r : Run) : Run :=
  if hasMode s StreamDebug then send (SendEvent evt) r else r.

Definition EmitValue (s : Streamer) (state : T) (r : Run) : Run :=
  if hasMode s StreamValues
  then send (SendStream {| Mode := StreamValues; Payload := state |}) r
  else r.

Definition EmitUpdate (s : Streamer) (update : T) (r : Run) : Run :=
  if hasMode s StreamUpdates
  then send (SendStream {| Mode := StreamUpdates; Payload := update |}) r
  else r.

Definition EmitCustom (s : Streamer) (data : T) (r : Run) : Run :=
  if hasMode s StreamCustom
  then send (SendStream {| Mode := StreamCustom; Payload := data |}) r
  else r.

Definition EmitMessage (s : Streamer) (msg : T) (r : Run) : Run :=
  if hasMode s StreamMessages
  then send (SendStream {| Mode := StreamMessages; Payload := msg |}) r
  else r.

(** *** InterruptManager *)

Definition set_interrupted (b : bool) (m : InterruptManager) : InterruptManager :=
  {| interrupted := b; breakpoints := breakpoints m |}.

(** [Interrupt] returns the manager it leaves behind, the [InterruptInfo]
    it sent on the interrupt channel (if it got that far) and its error. *)
Definition Interrupt (m : InterruptManager) (nodeName : string) (data : Any) (state : T)
    : InterruptManager * option InterruptInfo * option error :=
  if interrupted m then (m, None, Some ErrAlreadyInterrupted)
  else
    let m := set_interrupted true m in
    match json_Marshal data with
    | inr msg => (m, None, Some (ErrOther msg))
    | inl dataBytes =>
        match json_Marshal state with
        | inr msg => (m, None, Some (ErrOther msg))
        | inl stateBytes =>
            let info := {| NodeName := nodeName; Data := dataBytes; State := stateBytes |} in
            (m, Some info, None)
        end
    end.

(** [Resume] returns the manager, the state it sent on the resume channel
    (if any) and its error. *)
Definition Resume (m : InterruptManager) (state : T)
    : InterruptManager * option T * option error :=
  if negb (interrupted m) then (m, None, Some ErrNotInterrupted)
  else (set_interrupted false m, Some state, None).

(** [WaitForResume]: the engine is parked in the [select]; the other
    goroutine plays its script until a state arrives on the resume
    channel or the context is done.  [None]: neither ever happens.

    A [Resume] that gets past its guard is taken to be received.  In the
    source [Resume] lowers the flag and only then blocks on its send, and
    the [select] may still take [ctx.Done()] at that point: a wait that
    fails while the flag is already down.  That interleaving is outside
    this model: a [CtlCancel] stands for a context that is done while no
    [Resume] is in flight. *)
Fixpoint WaitForResume (m : InterruptManager) (script : list ctl_action)
    : option (T * option error) * InterruptManager * list ctl_action :=
  match script with
  | [] => (None, m, [])
  | CtlAddBreakpoint n :: rest => WaitForResume (AddBreakpoint m n) rest
  | CtlRemoveBreakpoint n :: rest => WaitForResume (RemoveBreakpoint m n) rest
  | CtlResume state :: rest =>
      match Resume m state with
      | (m', Some sent, _) => (Some (sent, None), m', rest)
      | (m', None, _) => WaitForResume m' rest
      end
  | CtlCancel cause :: rest => (Some (zero, Some (ErrOther cause)), m, rest)
  end.

Definition run_Interrupt (nodeName : string) (data : Any) (state : T) (r : Run)
    : option error * Run :=
  let '(m, sent, err) := Interrupt (mgr r) nodeName data state in
  (err, {| mgr := m; world := world r; ctl := ctl r;
           trace := trace r ++ match sent with Some info => [SendInterrupt info] | None => [] end |}).

Definition run_WaitForResume (r : Run) : option (T * option error) * Run :=
  let '(res, m, rest) := WaitForResume (mgr r) (ctl r) in
  (res, {| mgr := m; world := world r; ctl := rest; trace := trace r |}).

(** *** RunnableState.Invoke *)

(** How one pass through the body of the [for] loop ends. *)
Inductive flow :=
| Continue (currentNode : string) (state : T) (steps : Z)
    (* next iteration, through [continue] or the end of the body *)
| Break (state : T)
| Return (state : T) (err : option error)
| Blocked   (* parked for ever in WaitForResume *)
| Panic.    (* index out of range *)

(** The translation of the router's output through a non-nil mapping:
    the loop that appends to [mappedNodes]. *)
Definition translate (mapping : gmap string string) (nextNodes : list string) : list string :=
  foldl (fun mappedNodes node =>
           match mapping !! node with
           | Some mapped => mappedNodes ++ [mapped]
           | None => mappedNodes ++ [node]
           end) [] nextNodes.

(** The [for _, edge := range r.graph.edges] loop and the test of
    [foundNext] after it: the next node, or how [Invoke] ends. *)
Fixpoint route (es : list ConditionalEdge) (currentNode : string) (state : T) (r : Run)
    : (string + flow) * Run :=
  match es with
  | [] => (inr (Return zero (Some (ErrNoOutgoingEdge currentNode))), r)
  | edge :: rest =>
      if String.eqb (From edge) currentNode then
        let '((nextNodes, err), w) := Route edge state (world r) in
        let r := set_world w (send (CallRouter currentNode state) r) in
        match err with
        | Some err => (inr (Return zero (Some (ErrInRouter currentNode err))), r)
        | None =>
            if (length nextNodes =? 0)%nat
            then (inr (Return zero (Some ErrInvalidRouterOutput)), r)
            else
              let nextNodes :=
                match Mapping edge with
                | Some mapping => translate mapping nextNodes
                | None => nextNodes
                end in
              match nextNodes !! 0%nat with
              | Some next => (inl next, r)
              | None => (inr Panic, r)
              end
        end
      else route rest currentNode state r
  end.

(** The breakpoint check at the top of the body: the state the node will
    receive, or how [Invoke] ends. *)
Definition check_breakpoint (currentNode : string) (state : T) (r : Run)
    : (T + flow) * Run :=
  if HasBreakpoint (mgr r) currentNode then
    match run_Interrupt currentNode zero state r with
    | (Some err, r) => (inr (Return zero (Some (ErrTriggerBreakpoint err))), r)
    | (None, r) =>
        match run_WaitForResume r with
        | (None, r) => (inr Blocked, r)
        | (Some (state, Some err), r) => (inr (Return zero (Some (ErrWaitResume err))), r)
        | (Some (state, None), r) => (inl state, r)
        end
    end
  else (inl state, r).

Definition node_event (type : EventType) (currentNode : string) (steps : Z) : Event :=
  {| Event_Type := type; Event_Name := currentNode;
     Event_Metadata := Some (steps, currentNode) |}.

Definition graph_event (type : EventType) : Event :=
  {| Event_Type := type; Event_Name := "LangGraph"; Event_Metadata := None |}.

(** The rest of the body once the breakpoint check has passed: the
    lookup of the node, its step function, the interrupt it may ask for,
    and the routing. *)
Definition run_node (g : StateGraph) (ctx : Ctx)
    (currentNode : string) (state : T) (steps : Z) (r : Run) : flow * Run :=
  match nodes g !! currentNode with
  | None => (Return zero (Some (ErrNodeNotFound currentNode)), r)
  | Some node =>
      let r := EmitEvent (streamer g) (node_event EventChainStart currentNode steps) r in
      let r := send (CallNode currentNode state) r in
      let '((state, err), w) := Function node ctx state (world r) in
      let r := set_world w r in
      match err with
      | Some err =>
          if IsInterruptError err then
            let '(data, _) := GetInterruptData err in
            match run_Interrupt currentNode data state r with
            | (Some err, r) => (Return zero (Some (ErrTriggerInterrupt err)), r)
            | (None, r) =>
                match run_WaitForResume r with
                | (None, r) => (Blocked, r)
                | (Some (state, Some err), r) =>
                    (Return zero (Some (ErrWaitResume err)), r)
                | (Some (state, None), r) => (Continue currentNode state steps, r)
                end
            end
          else (Return zero (Some (ErrInNode currentNode err)), r)
      | None =>
          let r := EmitEvent (streamer g) (node_event EventChainEnd currentNode steps) r in
          let r := EmitUpdate (streamer g) state r in
          match route (edges g) currentNode state r with
          | (inr out, r) => (out, r)
          | (inl next, r) => (Continue next state (steps + 1), r)
          end
      end
  end.

(** One pass through the body of the loop. *)
Definition iteration (g : StateGraph) (ctx : Ctx)
    (currentNode : string) (state : T) (steps : Z) (r : Run) : flow * Run :=
  if (recursionLimit g <=? steps)%Z then
    (Return zero (Some (ErrRecursionLimit (recursionLimit g))), r)
  else if String.eqb currentNode END then (Break state, r)
  else
    match check_breakpoint currentNode state r with
    | (inr out, r) => (out, r)
    | (inl state, r) => run_node g ctx currentNode state steps r
    end.

(** The [for] loop, unrolled at most [fuel] times.  It ends in [Continue]
    exactly when the fuel ran out before the loop was left. *)
Fixpoint loop (fuel : nat) (g : StateGraph) (ctx : Ctx)
    (currentNode : string) (state : T) (steps : Z) (r : Run) : flow * Run :=
  match fuel with
  | O => (Continue currentNode state steps, r)
  | S fuel =>
      match iteration g ctx currentNode state steps r with
      | (Continue currentNode state steps, r) => loop fuel g ctx currentNode state steps r
      | out => out
      end
  end.

(** What the caller of [Invoke] may see. *)
Inductive outcome :=
| Returned (state : T) (err : option error)
| Blocks
| Panics
| OutOfFuel.

(** [Invoke] with the loop unrolled [fuel] times. *)
Definition Invoke_fuel (fuel : nat) (r : RunnableState) (ctx : Ctx) (state : T)
    (w : W) (script : list ctl_action) : outcome * Run :=
  let g := graph r in
  let currentNode := entryPoint g in
  let steps := 0%Z in
  let run := {| mgr := interruptManager g; world := w; ctl := script; trace := [] |} in
  let run := EmitValue (streamer g) state run in
  let run := EmitEvent (streamer g) (graph_event EventChainStart) run in
  match loop fuel g ctx currentNode state steps run with
  | (Break state, run) =>
      let run := EmitValue (streamer g) state run in
      let run := EmitEvent (streamer g) (graph_event EventChainEnd) run in
      (Returned state None, run)
  | (Return state err, run) => (Returned state err, run)
  | (Blocked, run) => (Blocks, run)
  | (Panic, run) => (Panics, run)
  | (Continue _ _ _, run) => (OutOfFuel, run)
  end.

(** Every pass either adds one to [steps], which stays below the limit,
    or consumes a [Resume] of the script: this many passes are enough
    ([Invoke_total] below). *)
Definition enough_fuel (g : StateGraph) (script : list ctl_action) : nat :=
  S (Z.to_nat (recursionLimit g) + length script).

Definition Invoke (r : RunnableState) (ctx : Ctx) (state : T)
    (w : W) (script : list ctl_action) : outcome * Run :=
  Invoke_fuel (enough_fuel (graph r) script) r ctx state w script.

(** *** Reading a trace *)

Definition is_interrupt (o : obs) : bool :=
  match o with SendInterrupt _ => true | _ => false end.

Definition is_call (o : obs) : bool :=
  match o with CallNode _ _ => true | _ => false end.

Definition is_route (o : obs) : bool :=
  match o with CallRouter _ _ => true | _ => false end.

Definition is_stream (mode : StreamMode) (o : obs) : bool :=
  match o with SendStream e => String.eqb (Mode e) mode | _ => false end.

Fixpoint count (p : obs -> bool) (t : list obs) : nat :=
  match t with
  | [] => O
  | o :: t => if p o then S (count p t) else count p t
  end.

(** The states sent in a given stream mode, in order. *)
Fixpoint streamed (mode : StreamMode) (t : list obs) : list T :=
  match t with
  | [] => []
  | SendStream e :: t =>
      if String.eqb (Mode e) mode then Payload e :: streamed mode t else streamed mode t
  | _ :: t => streamed mode t
  end.

(** What an emission adds to the trace: one send when its mode is
    active, nothing otherwise. *)
Definition event_obs (s : Streamer) (evt : Event) : list obs :=
  if hasMode s StreamDebug then [SendEvent evt] else [].

Definition value_obs (s : Streamer) (state : T) : list obs :=
  if hasMode s StreamValues
  then [SendStream {| Mode := StreamValues; Payload := state |}] else [].

Definition update_obs (s : Streamer) (state : T) : list obs :=
  if hasMode s StreamUpdates
  then [SendStream {| Mode := StreamUpdates; Payload := state |}] else [].

(** The run [Invoke] starts from. *)
Definition initial_run (g : StateGraph) (w : W) (script : list ctl_action) : Run :=
  {| mgr := interruptManager g; world := w; ctl := script; trace := [] |}.

(** *** Routing as the specification words it

    The first edge whose origin is the current node; its mapping applied
    to each name, absent names unchanged; the first candidate. *)

Definition apply_mapping (mapping : option (gmap string string)) (name : string) : string :=
  match mapping with
  | Some m => default name (m !! name)
  | None => name
  end.

Definition route_spec (es : list ConditionalEdge) (currentNode : string) (state : T) (r : Run)
    : (string + flow) * Run :=
  match List.find (fun e => String.eqb (From e) currentNode) es with
  | None => (inr (Return zero (Some (ErrNoOutgoingEdge currentNode))), r)
  | Some edge =>
      let '((names, err), w) := Route edge state (world r) in
      let r := set_world w (send (CallRouter currentNode state) r) in
      match err with
      | Some err => (inr (Return zero (Some (ErrInRouter currentNode err))), r)
      | None =>
          match List.map (apply_mapping (Mapping edge)) names with
          | [] => (inr (Return zero (Some ErrInvalidRouterOutput)), r)
          | first :: _ => (inl first, r)
          end
      end
  end.

(** The errors with which [Invoke] gives up. *)
Definition fatal (err : error) : Prop :=
  match err with
  | ErrRecursionLimit _ | ErrNodeNotFound _ | ErrNoOutgoingEdge _
  | ErrInvalidRouterOutput | ErrInRouter _ _ | ErrInNode _ _
  | ErrTriggerBreakpoint _ | ErrTriggerInterrupt _ | ErrWaitResume _ => True
  | _ => False
  end.

(** How a pass may end without going round again or leaving the loop:
    the zero state with a fatal error, or parked for ever. *)
Definition stops (out : flow) : Prop :=
  match out with
  | Return state (Some e) => state = zero /\ fatal e
  | Blocked => True
  | _ => False
  end.

(** *** What the loop may put on the trace

    Between the two bracketing emissions of [Invoke]: the start and end
    events of nodes when [StreamDebug] is active, state updates when
    [StreamUpdates] is active, interrupts, and the calls themselves. *)
Definition loop_obs (s : Streamer) (o : obs) : Prop :=
  match o with
  | SendEvent e =>
      hasMode s StreamDebug = true /\
      exists type node steps, e = node_event type node steps
  | SendStream e => hasMode s StreamUpdates = true /\ Mode e = StreamUpdates
  | SendInterrupt _ | CallNode _ _ | CallRouter _ _ => True
  end.


(** [adds s t t' calls routes]: the trace [t'] is [t] followed by
    observations of the loop, among them at most [calls] calls of step
    functions and at most [routes] calls of routers. *)
Definition adds (s : Streamer) (t t' : list obs) (calls routes : nat) : Prop :=
  exists new,
    t' = t ++ new /\ Forall (loop_obs s) new /\
    (count is_call new <= calls)%nat /\ (count is_route new <= routes)%nat.


(** What [Invoke] sends after the loop: the final state and the end event
    when it returns without error, nothing otherwise. *)
Definition closing (s : Streamer) (out : outcome) : list obs :=
  match out with
  | Returned state None => value_obs s state ++ event_obs s (graph_event EventChainEnd)
  | _ => []
  end.


End Engine.

(** ** tools/calculator.go

    The calculator tool.  Its arithmetic is that of [float64]; what the
    tool does with it is dispatch, so the operations, the conversions of
    [getNumber] and [strconv.ParseFloat] are parameters. *)

Section Calculator.

Context {float64 float32 : Type}.

Class Float64Ops := {
  f_add : float64 -> float64 -> float64;
  f_sub : float64 -> float64 -> float64;
  f_mul : float64 -> float64 -> float64;
  f_div : float64 -> float64 -> float64;
  f_is_zero : float64 -> bool;            (* b == 0 *)
  f_zero : float64;                       (* the literal 0 *)
  of_float32 : float32 -> float64;        (* float64(v) *)
  of_int : Z -> float64;                  (* float64(v) *)
  ParseFloat : string -> float64 * option string  (* strconv.ParseFloat(v, 64) *)
}.

Context `{Ops : Float64Ops}.

(** A value of type [interface{}], by its dynamic type: the types
    [getNumber] and [Execute] tell apart, and any other type by the name
    [%T] prints. *)
Inductive value :=
| Nil
| Float64 (x : float64)
| Float32 (x : float32)
| Int (n : Z)
| Str (s : string)
| Other (type : string).

Inductive number_error :=
| ParseError (msg : string)          (* the error of strconv.ParseFloat *)
| UnsupportedType (type : string).   (* "unsupported number type: %T" *)

Inductive calculator_error :=
| OperationNotString                       (* "operation must be a string" *)
| InvalidFirst (cause : number_error)      (* "invalid first number: %w" *)
| InvalidSecond (cause : number_error)     (* "invalid second number: %w" *)
| DivisionByZero                           (* "division by zero" *)
| UnknownOperation (operation : string).   (* "unknown operation: %s" *)

(** What [%T] prints for a value. *)
Definition type_name (v : value) : string :=
  match v with
  | Nil => "<nil>"
  | Float64 _ => "float64"
  | Float32 _ => "float32"
  | Int _ => "int"
  | Str _ => "string"
  | Other type => type
  end.

Definition getNumber (v : value) : float64 * option number_error :=
  match v with
  | Float64 x => (x, None)
  | Float32 x => (of_float32 x, None)
  | Int n => (of_int n, None)
  | Str s =>
      match ParseFloat s with
      | (x, Some msg) => (x, Some (ParseError msg))
      | (x, None) => (x, None)
      end
  | _ => (f_zero, Some (UnsupportedType (type_name v)))
  end.

(** [args[key]]: the zero value [nil] for a key that is absent. *)
Definition arg (args : gmap string value) (key : string) : value :=
  default Nil (args !! key).

Definition Execute (args : gmap string value) : value * option calculator_error :=
  match arg args "operation" with
  | Str operation =>
      let '(a, err) := getNumber (arg args "a") in
      match err with
      | Some err => (Nil, Some (InvalidFirst err))
      | None =>
          if String.eqb operation "square" then (Float64 (f_mul a a), None)
          else
            let '(b, err) := getNumber (arg args "b") in
            match err with
            | Some err => (Nil, Some (InvalidSecond err))
            | None =>
                if String.eqb operation "add" then (Float64 (f_add a b), None)
                else if String.eqb operation "subtract" then (Float64 (f_sub a b), None)
                else if String.eqb operation "multiply" then (Float64 (f_mul a b), None)
                else if String.eqb operation "divide" then
                  if f_is_zero b then (Nil, Some DivisionByZero)
                  else (Float64 (f_div a b), None)
                else (Nil, Some (UnknownOperation operation))
            end
      end
  | _ => (Nil, Some OperationNotString)
  end.

End Calculator.

Arguments Float64Ops : clear implicits.
Arguments value : clear implicits.

(** ** Concrete graphs

    The state type of [examples/graph/main.go] and three small graphs the
    properties below are tried on. *)

Module Examples.

(** The values of a [float64] field that matter here: the integral ones
    and NaN, which has no JSON encoding. *)
Inductive number :=
| Num (z : Z)
| NaN.

(** [State] of package [main]. *)
Record main_State := {
  Messages : list string;
  Result : number;
  Poem : string
}.

Definition with_Result (s : main_State) (x : number) : main_State :=
  {| Messages := Messages s; Result := x; Poem := Poem s |}.

(** A stand-in for [encoding/json] on [main_State]: the digits of [Result];
    a NaN makes [json.Marshal] fail. *)
#[export] Instance State_GoType : GoType main_State := {|
  zero := {| Messages := []; Result := Num 0; Poem := "" |};
  json_Marshal s :=
    match Result s with
    | Num z => inl (String.list_byte_of_string (pretty z))
    | NaN => inr "json: unsupported value: NaN"
    end
|}.

(** [interface{}] holding [nil] or a string. *)
#[export] Instance Any_GoType : GoType (option string) := {|
  zero := None;
  json_Marshal d :=
    match d with
    | None => inl (String.list_byte_of_string "null")
    | Some text => inl (String.list_byte_of_string text)
    end
|}.

#[export] Instance names : Sentinels := {|
  START := "__start__";
  END := "__end__"
|}.

(** The environment of the closures: how many step functions ran. *)
Definition Calls := nat.

Definition Step := unit -> main_State -> Calls -> (main_State * option (@error (option string))) * Calls.

Abbreviation Graph := (@StateGraph main_State (option string) unit Calls).

Definition to (target : string) : @Router main_State (option string) Calls :=
  fun _ w => (([target], None), w).

(** Scenario A: one node [calc], edge [calc -> END], entry [calc]. *)
Definition calc : Step :=
  fun _ state w => ((with_Result state (Num 55), None), S w).

Definition scenarioA (ms : list StreamMode) : Graph :=
  SetEntryPoint
    (AddConditionalEdges
       (AddNode
          (SetStreamConfig NewStateGraph {| Modes := ms; BufferSize := 100 |})
          "calc" calc)
       "calc" (to END) None)
    "calc".

(** A node that asks for a pause through the helper the first time it
    runs and succeeds afterwards. *)
Definition ask : Step :=
  fun ctx state w =>
    match w with
    | O => (Interrupt_helper ctx (Some "approve?"), S w)
    | S _ => ((with_Result state (Num 1), None), S w)
    end.

Definition asking : Graph :=
  SetEntryPoint
    (AddConditionalEdges (AddNode NewStateGraph "ask" ask) "ask" (to END) None)
    "ask".

(** A node that adds one to [Result] and comes back to itself until
    [Result] reaches nine, with a breakpoint on it. *)
Definition bump : Step :=
  fun _ state w =>
    (match Result state with
     | Num z => (with_Result state (Num (z + 1)), None)
     | NaN => (state, Some (ErrOther "not a number"))
     end, S w).

Definition until_nine : @Router main_State (option string) Calls :=
  fun state w =>
    (match Result state with
     | Num z => if (z <? 9)%Z then (["b"], None) else ([END], None)
     | NaN => ([], None)
     end, w).

Definition looping : Graph :=
  Graph_AddBreakpoint
    (SetEntryPoint
       (AddConditionalEdges (AddNode NewStateGraph "b" bump) "b" until_nine None)
       "b")
    "b".

(** Three edges, two of them from [a]; the first of these has a mapping
    that renames [x] only. *)
Definition renaming : gmap string string := {[ "x" := "b" ]}.

Definition candidates (names : list string) : @Router main_State (option string) Calls :=
  fun _ w => ((names, None), w).

Definition edge_z : @ConditionalEdge main_State (option string) Calls :=
  {| From := "z"; Route := to "q"; Mapping := None |}.

Definition edge_a : @ConditionalEdge main_State (option string) Calls :=
  {| From := "a"; Route := candidates ["x"; "y"]; Mapping := Some renaming |}.

Definition edge_a' : @ConditionalEdge main_State (option string) Calls :=
  {| From := "a"; Route := to "c"; Mapping := None |}.

Definition runnable (g : Graph) : RunnableState := {| graph := g |}.

Definition seven : main_State := {| Messages := []; Result := Num 7; Poem := "" |}.

Definition not_a_number : main_State := {| Messages := []; Result := NaN; Poem := "" |}.

Definition result_of (s : main_State) : Z :=
  match Result s with
  | Num z => z
  | NaN => 0
  end.

(** The run a first [Invoke] of [looping] leaves behind when its context
    is cancelled while it waits at the breakpoint, and the same graph as
    the next [Invoke] finds it. *)
Definition cancelled : outcome * Run :=
  Invoke (runnable looping) tt seven O [CtlCancel "context canceled"].

Definition looping_again : Graph :=
  set_interruptManager looping (mgr (snd cancelled)).

(** A node that comes back to itself for ever. *)
Definition round : @Router main_State (option string) Calls :=
  fun _ w => ((["a"; "never"], None), w).

Definition spinning (limit : Z) : Graph :=
  SetRecursionLimit
    (SetEntryPoint
       (AddConditionalEdges (AddNode NewStateGraph "a" calc) "a" round None)
       "a")
    limit.

(** An entry point that was never added as a node. *)
Definition dangling : Graph :=
  SetEntryPoint (AddNode NewStateGraph "a" bump) "missing".

(** *** The calculator on binary64

    Rocq's primitive floats are IEEE 754 binary64, as Go's [float64].  A
    [float32] is kept as the [float64] it converts to.

    This instance serves the examples only; the properties of the
    calculator are proved for every instance of [Float64Ops].  Two of its
    fields are partial renderings of Go.  [float_of_Z] is Go's
    [float64(int)] for an [n] with [- 2^63 < n < 2^63]; at [MinInt64]
    itself the 63-bit conversion wraps and it gives [-0] where Go gives
    [- 2^63].  The stand-in for [strconv.ParseFloat] reads non-empty
    strings of decimal digits and rejects every other string, also those
    that Go parses (a sign, a fraction, an exponent, [Inf], [NaN]). *)

Fixpoint digits (s : string) (acc : Z) : option Z :=
  match s with
  | EmptyString => Some acc
  | String c rest =>
      let n := Z.of_nat (Ascii.nat_of_ascii c) in
      if ((48 <=? n) && (n <=? 57))%Z then digits rest (10 * acc + (n - 48)) else None
  end.

Definition float_of_Z (n : Z) : PrimFloat.float :=
  if (n <? 0)%Z then PrimFloat.opp (PrimFloat.of_uint63 (Uint63.of_Z (- n)))
  else PrimFloat.of_uint63 (Uint63.of_Z n).

#[export] Instance binary64 : Float64Ops PrimFloat.float PrimFloat.float := {|
  f_add := PrimFloat.add;
  f_sub := PrimFloat.sub;
  f_mul := PrimFloat.mul;
  f_div := PrimFloat.div;
  f_is_zero := fun b => PrimFloat.eqb b PrimFloat.zero;
  f_zero := PrimFloat.zero;
  of_float32 := fun x => x;
  of_int := float_of_Z;
  ParseFloat := fun s =>
    match s with
    | EmptyString => (PrimFloat.zero, Some "invalid syntax")
    | _ => match digits s 0 with
           | Some n => (float_of_Z n, None)
           | None => (PrimFloat.zero, Some "invalid syntax")
           end
    end
|}.

Abbreviation json_value := (value PrimFloat.float PrimFloat.float).

(** The arguments of a call: [{"operation": "square", "a": 3}]. *)
Definition square_three : gmap string json_value :=
  {[ "operation" := Str "square"; "a" := Float64 (float_of_Z 3) ]}.

Definition divide_by (a b : json_value) : gmap string json_value :=
  {[ "operation" := Str "divide"; "a" := a; "b" := b ]}.



Definition three : main_State := {| Messages := []; Result := Num 3; Poem := "" |}.



Definition calls (t : list (@obs main_State)) : list (@obs main_State) :=
  List.filter is_call t.


End Examples.

(** ** Properties *)

Section Properties.

Context {T Any Ctx W : Type}.
Context `{GoT : GoType T} `{GoAny : GoType Any} `{Names : Sentinels}.

Implicit Types (g : @StateGraph T Any Ctx W) (r : @Run T W).
Implicit Types (m : InterruptManager) (script : list (@ctl_action T)).
Implicit Types (state : T) (steps : Z) (currentNode : string).
Implicit Types (err : @error Any) (res : option (T * option (@error Any))).
Implicit Types (out : @flow T Any).

Ltac break_match :=
  match goal with
  | H : context [match ?x with _ => _ end] |- _ => destruct x eqn:?
  | |- context [match ?x with _ => _ end] => destruct x eqn:?
  end.

Ltac invert H := inversion H; subst; clear H.

(** *** The interrupt manager *)

Lemma HasBreakpoint_Add m n : HasBreakpoint (AddBreakpoint m n) n = true.
Proof.
  unfold HasBreakpoint, AddBreakpoint; simpl. apply bool_decide_eq_true.
  apply elem_of_union; left. now apply elem_of_singleton.
Qed.

Lemma HasBreakpoint_Remove m n : HasBreakpoint (RemoveBreakpoint m n) n = false.
Proof.
  unfold HasBreakpoint, RemoveBreakpoint; simpl. apply bool_decide_eq_false.
  rewrite elem_of_difference, elem_of_singleton. tauto.
Qed.

Lemma HasBreakpoint_Remove_other m n n' :
  n <> n' -> HasBreakpoint (RemoveBreakpoint m n) n' = HasBreakpoint m n'.
Proof.
  intros Hne. unfold HasBreakpoint, RemoveBreakpoint; simpl.
  apply bool_decide_ext.
  rewrite elem_of_difference, elem_of_singleton. intuition congruence.
Qed.

Lemma Interrupt_busy m n (d : Any) state :
  interrupted m = true ->
  Interrupt m n d state = (m, None, Some ErrAlreadyInterrupted).
Proof. intros Hb. unfold Interrupt. now rewrite Hb. Qed.

Lemma Interrupt_sends m n (d : Any) state db sb :
  interrupted m = false ->
  json_Marshal d = inl db ->
  json_Marshal state = inl sb ->
  Interrupt m n d state =
    (set_interrupted true m, Some {| NodeName := n; Data := db; State := sb |}, None).
Proof. intros Hb Hd Hs. unfold Interrupt. now rewrite Hb, Hd, Hs. Qed.

(** A successful [Interrupt] sent exactly one message and left the flag up. *)
Lemma Interrupt_ok m n (d : Any) state m' sent :
  Interrupt m n d state = (m', sent, None) ->
  interrupted m = false /\ m' = set_interrupted true m /\
  exists db sb, json_Marshal d = inl db /\ json_Marshal state = inl sb /\
                sent = Some {| NodeName := n; Data := db; State := sb |}.
Proof.
  unfold Interrupt. intros Hi. repeat break_match; invert Hi.
  repeat split; eauto.
Qed.

Lemma Interrupt_failed m n (d : Any) state m' sent e :
  Interrupt m n d state = (m', sent, Some e) -> sent = None.
Proof. unfold Interrupt. intros Hi. repeat break_match; now invert Hi. Qed.

(** The script only gets shorter while the engine waits, and strictly so
    when the wait ends. *)
Lemma WaitForResume_shorter m script res m' rest :
  WaitForResume m script = (res, m', rest) ->
  (length rest <= length script)%nat /\
  (forall x, res = Some x -> (length rest < length script)%nat).
Proof.
  revert m. induction script as [|a script IH]; intros m Hw; simpl in Hw.
  - invert Hw. split; [lia | discriminate].
  - destruct a.
    + apply IH in Hw. simpl. split; [lia | intros x Hx; apply Hw in Hx; lia].
    + apply IH in Hw. simpl. split; [lia | intros x Hx; apply Hw in Hx; lia].
    + unfold Resume in Hw. destruct (negb (interrupted m)).
      * apply IH in Hw. simpl. split; [lia | intros x Hx; apply Hw in Hx; lia].
      * invert Hw. simpl. split; [lia | intros; lia].
    + invert Hw. simpl. split; [lia | intros; lia].
Qed.


(** *** What each step of the engine leaves alone *)

Lemma EmitEvent_frame (s : Streamer) evt r :
  mgr (EmitEvent s evt r) = mgr r /\ world (EmitEvent s evt r) = world r /\
  ctl (EmitEvent s evt r) = ctl r.
Proof. unfold EmitEvent. now destruct (hasMode s StreamDebug). Qed.

Lemma EmitValue_frame (s : Streamer) state r :
  mgr (EmitValue s state r) = mgr r /\ world (EmitValue s state r) = world r /\
  ctl (EmitValue s state r) = ctl r.
Proof. unfold EmitValue. now destruct (hasMode s StreamValues). Qed.

Lemma EmitUpdate_frame (s : Streamer) state r :
  mgr (EmitUpdate s state r) = mgr r /\ world (EmitUpdate s state r) = world r /\
  ctl (EmitUpdate s state r) = ctl r.
Proof. unfold EmitUpdate. now destruct (hasMode s StreamUpdates). Qed.

Lemma run_Interrupt_ctl n (d : Any) state r oe r' :
  run_Interrupt n d state r = (oe, r') -> ctl r' = ctl r.
Proof.
  unfold run_Interrupt. destruct (Interrupt (mgr r) n d state) as [[m' sent] e].
  intros Hr. now invert Hr.
Qed.

Lemma run_WaitForResume_ctl r res r' :
  run_WaitForResume r = (res, r') ->
  (length (ctl r') <= length (ctl r))%nat /\
  (forall x, res = Some x -> (length (ctl r') < length (ctl r))%nat).
Proof.
  unfold run_WaitForResume.
  destruct (WaitForResume (mgr r) (ctl r)) as [[res0 m'] rest] eqn:Hw.
  intros Hr. invert Hr. simpl. eapply WaitForResume_shorter; eauto.
Qed.

(** *** Routing *)

Lemma translate_acc (mapping : gmap string string) (names acc : list string) :
  foldl (fun mappedNodes node =>
           match mapping !! node with
           | Some mapped => mappedNodes ++ [mapped]
           | None => mappedNodes ++ [node]
           end) acc names
  = acc ++ List.map (apply_mapping (Some mapping)) names.
Proof.
  revert acc. induction names as [|name names IH]; intros acc; simpl.
  - now rewrite app_nil_r.
  - rewrite IH. unfold apply_mapping at 2.
    destruct (mapping !! name); simpl; now rewrite <- app_assoc.
Qed.

(** The loop over the router's output is a [map]: every name is looked
    up, the names the mapping does not have are kept. *)
Lemma translate_map (mapping : gmap string string) (names : list string) :
  translate mapping names = List.map (apply_mapping (Some mapping)) names.
Proof. unfold translate. now rewrite translate_acc. Qed.

Lemma mapped_names (mapping : option (gmap string string)) (names : list string) :
  match mapping with
  | Some mapping => translate mapping names
  | None => names
  end = List.map (apply_mapping mapping) names.
Proof.
  destruct mapping as [mapping|]; [apply translate_map|].
  simpl. now rewrite map_id.
Qed.

(** The source's loop over the edges does what the specification says. *)
Lemma route_refines (es : list (@ConditionalEdge T Any W)) currentNode state r :
  route es currentNode state r = route_spec es currentNode state r.
Proof.
  unfold route_spec. induction es as [|edge es IH]; simpl; [reflexivity|].
  destruct (String.eqb (From edge) currentNode); [|exact IH].
  destruct (Route edge state (world r)) as [[nextNodes e] w].
  destruct e as [e|]; [reflexivity|].
  rewrite mapped_names.
  destruct nextNodes as [|name names]; reflexivity.
Qed.

Lemma route_ctl (es : list (@ConditionalEdge T Any W)) currentNode state r x r' :
  route es currentNode state r = (x, r') -> ctl r' = ctl r.
Proof.
  rewrite route_refines. unfold route_spec. intros Hr.
  repeat break_match; now invert Hr.
Qed.

Lemma route_stops (es : list (@ConditionalEdge T Any W)) currentNode state r out r' :
  route es currentNode state r = (inr out, r') -> stops out.
Proof.
  rewrite route_refines. unfold route_spec. intros Hr.
  repeat break_match; invert Hr; simpl; auto.
Qed.

Lemma check_breakpoint_ctl currentNode state r (x : T + @flow T Any) r' :
  check_breakpoint currentNode state r = (x, r') ->
  (length (ctl r') <= length (ctl r))%nat.
Proof.
  unfold check_breakpoint. intros Hc.
  destruct (HasBreakpoint (mgr r) currentNode); [|invert Hc; lia].
  destruct (run_Interrupt currentNode zero state r) as [e r1] eqn:Hi.
  apply run_Interrupt_ctl in Hi. rewrite <- Hi.
  destruct e; [invert Hc; lia|].
  destruct (run_WaitForResume r1) as [res r2] eqn:Hw.
  apply run_WaitForResume_ctl in Hw. destruct Hw as [Hle _].
  repeat break_match; invert Hc; lia.
Qed.

Lemma check_breakpoint_stops currentNode state r out r' :
  check_breakpoint currentNode state r = (@inr T _ out, r') -> stops out.
Proof.
  unfold check_breakpoint. intros Hc.
  repeat break_match; invert Hc; simpl; auto.
Qed.

(** *** The loop terminates *)

(** A node that sends the engine round again either counted a step or
    stayed put after a resume that shortened the script. *)
Lemma run_node_Continue g (ctx : Ctx) currentNode state steps r next state' steps' r' :
  run_node g ctx currentNode state steps r = (Continue next state' steps', r') ->
  (steps' = steps + 1)%Z /\ (length (ctl r') <= length (ctl r))%nat \/
  steps' = steps /\ next = currentNode /\ (length (ctl r') < length (ctl r))%nat.
Proof.
  unfold run_node. intros Hi.
  destruct (nodes g !! currentNode) as [node|]; [|discriminate].
  destruct (EmitEvent_frame (streamer g) (node_event EventChainStart currentNode steps) r)
    as (_ & _ & Hc1).
  match type of Hi with context [Function node ctx state ?w0] =>
    destruct (Function node ctx state w0) as [[st' e] w] end.
  destruct e as [e|].
  - destruct (IsInterruptError e); [|discriminate].
    destruct (GetInterruptData e) as [data ok].
    match type of Hi with context [run_Interrupt ?n ?d ?s ?x] =>
      destruct (run_Interrupt n d s x) as [e1 r3] eqn:Hint end.
    apply run_Interrupt_ctl in Hint. simpl in Hint. rewrite Hc1 in Hint.
    apply (f_equal length) in Hint.
    destruct e1; [discriminate|].
    destruct (run_WaitForResume r3) as [res r4] eqn:Hw.
    apply run_WaitForResume_ctl in Hw. destruct Hw as [_ Hlt].
    destruct res as [[st'' [e2|]]|]; try discriminate.
    invert Hi. right. repeat split; try reflexivity.
    specialize (Hlt _ eq_refl). lia.
  - match type of Hi with context [route ?es ?c ?s ?x] =>
      destruct (route es c s x) as [[nx|out] r5] eqn:Hr end.
    + apply route_ctl in Hr.
      rewrite (proj2 (proj2 (EmitUpdate_frame _ _ _))) in Hr.
      rewrite (proj2 (proj2 (EmitEvent_frame _ _ _))) in Hr.
      simpl in Hr. rewrite ?Hc1 in Hr. apply (f_equal length) in Hr.
      invert Hi. left. split; [reflexivity|]. lia.
    + invert Hi. now apply route_stops in Hr.
Qed.

Lemma run_node_ends g (ctx : Ctx) currentNode state steps r out r' :
  run_node g ctx currentNode state steps r = (out, r') ->
  match out with
  | Continue _ _ _ => True
  | _ => stops out
  end.
Proof.
  unfold run_node. intros Hi.
  destruct (nodes g !! currentNode) as [node|]; [|invert Hi; simpl; auto].
  match type of Hi with context [Function node ctx state ?w0] =>
    destruct (Function node ctx state w0) as [[st' e] w] end.
  destruct e as [e|].
  - destruct (IsInterruptError e); [|invert Hi; simpl; auto].
    destruct (GetInterruptData e) as [data ok].
    repeat break_match; invert Hi; simpl; auto.
  - match type of Hi with context [route ?es ?c ?s ?x] =>
      destruct (route es c s x) as [[nx|out1] r5] eqn:Hr end.
    + now invert Hi.
    + invert Hi. apply route_stops in Hr. destruct out; simpl in *; tauto.
Qed.

(** A pass that goes on to another either counted a step below the limit
    or stayed on its node after a resume that shortened the script. *)
Lemma iteration_Continue g (ctx : Ctx) currentNode state steps r next state' steps' r' :
  iteration g ctx currentNode state steps r = (Continue next state' steps', r') ->
  (steps < recursionLimit g)%Z /\
  ((steps' = steps + 1)%Z /\ (length (ctl r') <= length (ctl r))%nat \/
   steps' = steps /\ next = currentNode /\ (length (ctl r') < length (ctl r))%nat).
Proof.
  unfold iteration. intros Hi.
  destruct (recursionLimit g <=? steps)%Z eqn:Hlim; [discriminate|].
  apply Z.leb_gt in Hlim. split; [exact Hlim|].
  destruct (String.eqb currentNode END); [discriminate|].
  destruct (check_breakpoint currentNode state r) as [[st|out] r1] eqn:Hb.
  2:{ invert Hi. now apply check_breakpoint_stops in Hb. }
  apply check_breakpoint_ctl in Hb.
  apply run_node_Continue in Hi. destruct Hi as [[? ?]|(? & ? & ?)]; [left|right];
    repeat split; auto; lia.
Qed.

(** Every pass goes round again, leaves the loop at [END], or stops. *)
Lemma iteration_ends g (ctx : Ctx) currentNode state steps r out r' :
  iteration g ctx currentNode state steps r = (out, r') ->
  match out with
  | Continue _ _ _ => True
  | Break state' => currentNode = END /\ state' = state /\ r' = r
  | _ => stops out
  end.
Proof.
  unfold iteration. intros Hi.
  destruct (recursionLimit g <=? steps)%Z; [invert Hi; simpl; auto|].
  destruct (String.eqb currentNode END) eqn:Hend.
  { invert Hi. apply String.eqb_eq in Hend. auto. }
  destruct (check_breakpoint currentNode state r) as [[st|out1] r1] eqn:Hb.
  2:{ invert Hi. apply check_breakpoint_stops in Hb. destruct out; simpl in *; tauto. }
  apply run_node_ends in Hi. destruct out; simpl in *; tauto.
Qed.

Lemma loop_ends fuel g (ctx : Ctx) currentNode state steps r out r' :
  loop fuel g ctx currentNode state steps r = (out, r') ->
  match out with
  | Continue _ _ _ | Break _ => True
  | _ => stops out
  end.
Proof.
  revert currentNode state steps r.
  induction fuel as [|fuel IH]; intros currentNode state steps r Hl; simpl in Hl.
  - now invert Hl.
  - destruct (iteration g ctx currentNode state steps r) as [o r1] eqn:Hi.
    apply iteration_ends in Hi.
    destruct o as [c s n| s | s e | |].
    + eapply IH; eassumption.
    + now invert Hl.
    + invert Hl. exact Hi.
    + invert Hl. exact Hi.
    + invert Hl. exact Hi.
Qed.

(** With more fuel than the steps left below the limit plus the actions
    left in the script, the loop is left. *)
Lemma loop_leaves fuel g (ctx : Ctx) currentNode state steps r next state' steps' r' :
  (Z.to_nat (recursionLimit g - steps) + length (ctl r) < fuel)%nat ->
  loop fuel g ctx currentNode state steps r <> (Continue next state' steps', r').
Proof.
  revert currentNode state steps r.
  induction fuel as [|fuel IH]; intros currentNode state steps r Hf; [lia|].
  simpl. destruct (iteration g ctx currentNode state steps r) as [o r1] eqn:Hi.
  destruct o; try discriminate.
  apply iteration_Continue in Hi. destruct Hi as [Hlim Hi].
  apply IH. destruct Hi as [[-> Hc]|(-> & _ & Hc)]; lia.
Qed.

(** *** Traces *)

Lemma trace_EmitEvent (s : Streamer) evt r :
  trace (EmitEvent s evt r) = trace r ++ event_obs s evt.
Proof.
  unfold EmitEvent, event_obs. destruct (hasMode s StreamDebug); simpl; [reflexivity|].
  now rewrite app_nil_r.
Qed.

Lemma trace_EmitValue (s : Streamer) state r :
  trace (EmitValue s state r) = trace r ++ value_obs s state.
Proof.
  unfold EmitValue, value_obs. destruct (hasMode s StreamValues); simpl; [reflexivity|].
  now rewrite app_nil_r.
Qed.

Lemma trace_EmitUpdate (s : Streamer) state r :
  trace (EmitUpdate s state r) = trace r ++ update_obs s state.
Proof.
  unfold EmitUpdate, update_obs. destruct (hasMode s StreamUpdates); simpl; [reflexivity|].
  now rewrite app_nil_r.
Qed.

Lemma count_app (p : @obs T -> bool) (t1 t2 : list obs) :
  count p (t1 ++ t2) = (count p t1 + count p t2)%nat.
Proof.
  induction t1 as [|o t1 IH]; simpl; [reflexivity|].
  destruct (p o); simpl; now rewrite IH.
Qed.

Lemma streamed_app (mode : StreamMode) (t1 t2 : list (@obs T)) :
  streamed mode (t1 ++ t2) = streamed mode t1 ++ streamed mode t2.
Proof.
  induction t1 as [|o t1 IH]; simpl; [reflexivity|].
  destruct o; try exact IH.
  destruct (String.eqb (Mode e) mode); simpl; now rewrite IH.
Qed.

Lemma count_event_obs (p : @obs T -> bool) (s : Streamer) evt :
  (forall e, p (SendEvent e) = false) -> count p (event_obs s evt) = O.
Proof. intros Hp. unfold event_obs. destruct (hasMode s StreamDebug); simpl; now rewrite ?Hp. Qed.

Lemma count_value_obs (p : @obs T -> bool) (s : Streamer) state :
  (forall e, p (SendStream e) = false) -> count p (value_obs s state) = O.
Proof. intros Hp. unfold value_obs. destruct (hasMode s StreamValues); simpl; now rewrite ?Hp. Qed.

Lemma count_update_obs (p : @obs T -> bool) (s : Streamer) state :
  (forall e, p (SendStream e) = false) -> count p (update_obs s state) = O.
Proof. intros Hp. unfold update_obs. destruct (hasMode s StreamUpdates); simpl; now rewrite ?Hp. Qed.

Lemma streamed_event_obs (mode : StreamMode) (s : Streamer) evt :
  streamed mode (@event_obs T s evt) = [].
Proof. unfold event_obs. now destruct (hasMode s StreamDebug). Qed.

Lemma streamed_value_obs (s : Streamer) state :
  streamed StreamValues (value_obs s state)
  = if hasMode s StreamValues then [state] else [].
Proof. unfold value_obs. now destruct (hasMode s StreamValues). Qed.

Lemma streamed_update_obs (s : Streamer) state :
  streamed StreamUpdates (update_obs s state)
  = if hasMode s StreamUpdates then [state] else [].
Proof. unfold update_obs. now destruct (hasMode s StreamUpdates). Qed.

Lemma streamed_values_update_obs (s : Streamer) state :
  streamed StreamValues (update_obs s state) = [].
Proof. unfold update_obs. now destruct (hasMode s StreamUpdates). Qed.

Lemma streamed_updates_value_obs (s : Streamer) state :
  streamed StreamUpdates (value_obs s state) = [].
Proof. unfold value_obs. now destruct (hasMode s StreamValues). Qed.

Ltac frames :=
  repeat first
    [ rewrite (proj1 (EmitEvent_frame _ _ _))
    | rewrite (proj1 (EmitValue_frame _ _ _))
    | rewrite (proj1 (EmitUpdate_frame _ _ _))
    | rewrite (proj1 (proj2 (EmitEvent_frame _ _ _)))
    | rewrite (proj1 (proj2 (EmitValue_frame _ _ _)))
    | rewrite (proj1 (proj2 (EmitUpdate_frame _ _ _)))
    | rewrite (proj2 (proj2 (EmitEvent_frame _ _ _)))
    | rewrite (proj2 (proj2 (EmitValue_frame _ _ _)))
    | rewrite (proj2 (proj2 (EmitUpdate_frame _ _ _))) ].

Lemma trace_send (o : @obs T) r : trace (send o r) = trace r ++ [o].
Proof. reflexivity. Qed.

Lemma trace_set_world (w : W) r : trace (set_world w r) = trace r.
Proof. reflexivity. Qed.

Ltac traces :=
  repeat first
    [ rewrite trace_EmitEvent | rewrite trace_EmitValue | rewrite trace_EmitUpdate
    | rewrite trace_send | rewrite trace_set_world ].

(** *** [Invoke] always ends *)

Lemma Invoke_fuel_ends fuel (rs : @RunnableState T Any Ctx W) (ctx : Ctx) state w script :
  (Z.to_nat (recursionLimit (graph rs)) + length script < fuel)%nat ->
  match fst (Invoke_fuel fuel rs ctx state w script) with
  | Returned st (Some e) => st = zero /\ fatal e
  | Returned _ None | Blocks => True
  | Panics | OutOfFuel => False
  end.
Proof.
  intros Hf. unfold Invoke_fuel.
  match goal with |- context [loop fuel ?g ctx ?c ?s ?n ?r0] =>
    destruct (loop fuel g ctx c s n r0) as [out r1] eqn:Hl;
    assert (Hc : ctl r0 = script)
  end.
  { rewrite (proj2 (proj2 (EmitEvent_frame _ _ _))).
    now rewrite (proj2 (proj2 (EmitValue_frame _ _ _))). }
  destruct out as [c s n| s | s e | |]; simpl.
  - eapply loop_leaves; [|exact Hl]. rewrite Hc, Z.sub_0_r. exact Hf.
  - exact I.
  - apply loop_ends in Hl. simpl in Hl. destruct e; [exact Hl|exact I].
  - exact I.
  - apply loop_ends in Hl. exact Hl.
Qed.

(** [Invoke] never runs out of fuel and never indexes an empty list: it
    returns, or it waits for a [Resume] that does not come. *)
Theorem Invoke_total (rs : @RunnableState T Any Ctx W) (ctx : Ctx) state w script :
  fst (Invoke rs ctx state w script) <> OutOfFuel /\
  fst (Invoke rs ctx state w script) <> Panics.
Proof.
  pose proof (Invoke_fuel_ends (enough_fuel (graph rs) script) rs ctx state w script) as He.
  unfold Invoke. unfold enough_fuel in *.
  destruct (fst (Invoke_fuel _ rs ctx state w script));
    (split; [try discriminate | try discriminate]); exfalso; apply He; lia.
Qed.


(** *** The paths through one pass *)

Lemma iteration_limit g (ctx : Ctx) currentNode state steps r :
  (recursionLimit g <= steps)%Z ->
  iteration g ctx currentNode state steps r
  = (Return zero (Some (ErrRecursionLimit (recursionLimit g))), r).
Proof. intros Hl. unfold iteration. apply Z.leb_le in Hl. now rewrite Hl. Qed.

Lemma iteration_END g (ctx : Ctx) state steps r :
  (steps < recursionLimit g)%Z ->
  iteration g ctx END state steps r = (Break state, r).
Proof.
  intros Hl. unfold iteration. apply Z.leb_gt in Hl. now rewrite Hl, String.eqb_refl.
Qed.

Lemma iteration_body g (ctx : Ctx) currentNode state steps r :
  (steps < recursionLimit g)%Z ->
  currentNode <> END ->
  iteration g ctx currentNode state steps r
  = match check_breakpoint currentNode state r with
    | (inr out, r) => (out, r)
    | (inl state, r) => run_node g ctx currentNode state steps r
    end.
Proof.
  intros Hl Hne. unfold iteration. apply Z.leb_gt in Hl. rewrite Hl.
  apply String.eqb_neq in Hne. now rewrite Hne.
Qed.

Lemma check_breakpoint_none currentNode state r :
  HasBreakpoint (mgr r) currentNode = false ->
  @check_breakpoint T Any W _ _ currentNode state r = (inl state, r).
Proof. intros Hb. unfold check_breakpoint. now rewrite Hb. Qed.

Lemma run_Interrupt_busy n (d : Any) state r :
  interrupted (mgr r) = true ->
  run_Interrupt n d state r = (Some ErrAlreadyInterrupted, r).
Proof.
  intros Hb. unfold run_Interrupt. rewrite Interrupt_busy by exact Hb.
  destruct r; simpl. now rewrite app_nil_r.
Qed.

Lemma check_breakpoint_busy currentNode state r :
  HasBreakpoint (mgr r) currentNode = true ->
  interrupted (mgr r) = true ->
  check_breakpoint currentNode state r
  = (inr (Return zero (Some (ErrTriggerBreakpoint (@ErrAlreadyInterrupted Any)))), r).
Proof.
  intros Hb Hi. unfold check_breakpoint. rewrite Hb.
  now rewrite run_Interrupt_busy by exact Hi.
Qed.

Lemma check_breakpoint_resumed currentNode state r db sb state' m' rest :
  HasBreakpoint (mgr r) currentNode = true ->
  interrupted (mgr r) = false ->
  json_Marshal (zero : Any) = inl db ->
  json_Marshal state = inl sb ->
  WaitForResume (set_interrupted true (mgr r)) (ctl r)
    = (Some (state', @None (@error Any)), m', rest) ->
  @check_breakpoint T Any W _ _ currentNode state r
  = (inl state',
     {| mgr := m'; world := world r; ctl := rest;
        trace := trace r ++ [SendInterrupt {| NodeName := currentNode; Data := db; State := sb |}] |}).
Proof.
  intros Hb Hi Hd Hs Hw. unfold check_breakpoint. rewrite Hb.
  unfold run_Interrupt. rewrite (Interrupt_sends _ _ _ _ db sb) by assumption.
  unfold run_WaitForResume. simpl. now rewrite Hw.
Qed.

(** C2.  At the top of a pass, a step count that has reached the limit
    makes the loop give up at once with the recursion-limit error: before
    the test for [END] (the current node is arbitrary, [END] included)
    and with the run untouched, so no further node is executed.  With a
    limit that is not positive [Invoke] gives up in its first pass: no
    step function and no router was ever called. *)
Theorem C2_recursion_limit_checked_first (rs : @RunnableState T Any Ctx W) (ctx : Ctx) :
  (forall fuel currentNode state steps r,
      (recursionLimit (graph rs) <= steps)%Z ->
      loop (S fuel) (graph rs) ctx currentNode state steps r
      = (Return zero (Some (ErrRecursionLimit (recursionLimit (graph rs)))), r)) /\
  (forall state w script,
      (recursionLimit (graph rs) <= 0)%Z ->
      exists run,
        Invoke rs ctx state w script
        = (Returned zero (Some (ErrRecursionLimit (recursionLimit (graph rs)))), run) /\
        trace run = value_obs (streamer (graph rs)) state
                    ++ event_obs (streamer (graph rs)) (graph_event EventChainStart) /\
        count is_call (trace run) = O /\ count is_route (trace run) = O /\
        world run = w).
Proof.
  split.
  - intros fuel currentNode state steps r Hl. simpl.
    now rewrite iteration_limit by exact Hl.
  - intros state w script Hl. eexists. unfold Invoke, Invoke_fuel, enough_fuel.
    simpl loop. rewrite iteration_limit by exact Hl.
    split; [reflexivity|].
    traces. frames. simpl.
    rewrite !count_app, !count_event_obs, !count_value_obs by reflexivity.
    repeat split; reflexivity.
Qed.

(** C10.  When the entry point is [END] and the limit is positive,
    [Invoke] returns its input state with a nil error; all it does is
    the four bracketing emissions, the state being sent twice in
    [StreamValues] mode when that mode is active: no step function and
    no router runs, and the manager, the closures' environment and the
    script are as they were. *)
Theorem C10_entry_point_END (rs : @RunnableState T Any Ctx W) (ctx : Ctx) state w script :
  entryPoint (graph rs) = END ->
  (0 < recursionLimit (graph rs))%Z ->
  exists run,
    Invoke rs ctx state w script = (Returned state None, run) /\
    trace run = value_obs (streamer (graph rs)) state
                ++ event_obs (streamer (graph rs)) (graph_event EventChainStart)
                ++ value_obs (streamer (graph rs)) state
                ++ event_obs (streamer (graph rs)) (graph_event EventChainEnd) /\
    streamed StreamValues (trace run)
    = (if hasMode (streamer (graph rs)) StreamValues then [state; state] else []) /\
    count is_call (trace run) = O /\ count is_route (trace run) = O /\
    mgr run = interruptManager (graph rs) /\ world run = w /\ ctl run = script.
Proof.
  intros He Hl. eexists. unfold Invoke, Invoke_fuel, enough_fuel.
  simpl loop. rewrite He, iteration_END by exact Hl.
  split; [reflexivity|].
  traces. frames. simpl.
  rewrite <- !app_assoc. split; [reflexivity|].
  rewrite !streamed_app, !streamed_event_obs, !streamed_value_obs, !app_nil_r.
  rewrite !count_app, !count_event_obs, !count_value_obs by reflexivity.
  destruct (hasMode (streamer (graph rs)) StreamValues); repeat split; reflexivity.
Qed.

(** C3.  A routing step uses the first edge, in the order the edges were
    added, whose [From] is the current node: the edges before it do not
    match, the edges after it are not looked at, and only its router is
    called.  A non-nil mapping is applied to every name the router
    returned, the names it does not have passing through unchanged; the
    next node is the first of the translated candidates, however many
    the router returned. *)
Theorem C3_first_edge_first_candidate
    (pre post : list (@ConditionalEdge T Any W)) edge currentNode state r first others w :
  Forall (fun e => From e <> currentNode) pre ->
  From edge = currentNode ->
  Route edge state (world r) = ((first :: others, None), w) ->
  route (pre ++ edge :: post) currentNode state r
  = (inl (apply_mapping (Mapping edge) first),
     set_world w (send (CallRouter currentNode state) r)) /\
  (forall mapping names,
      Mapping edge = Some mapping ->
      translate mapping names
      = List.map (fun name => default name (mapping !! name)) names) /\
  route_spec (pre ++ edge :: post) currentNode state r
  = route (pre ++ edge :: post) currentNode state r.
Proof.
  intros Hpre Hfrom Hroute. split; [|split].
  - induction Hpre as [|e pre Hne _ IH]; simpl.
    + apply String.eqb_eq in Hfrom. rewrite Hfrom, Hroute. simpl.
      rewrite mapped_names. reflexivity.
    + apply String.eqb_neq in Hne. now rewrite Hne.
  - intros mapping names _. apply translate_map.
  - symmetry. apply route_refines.
Qed.

(** A node that succeeds hands over to the routing step and counts one
    step. *)
Lemma run_node_routes g (ctx : Ctx) currentNode node state steps r state' w next r' :
  nodes g !! currentNode = Some node ->
  Function node ctx state (world r) = ((state', None), w) ->
  route (edges g) currentNode state'
    (EmitUpdate (streamer g) state'
       (EmitEvent (streamer g) (node_event EventChainEnd currentNode steps)
          (set_world w
             (send (CallNode currentNode state)
                (EmitEvent (streamer g) (node_event EventChainStart currentNode steps) r)))))
  = (inl next, r') ->
  run_node g ctx currentNode state steps r = (Continue next state' (steps + 1), r').
Proof.
  intros Hn Hf Hr. unfold run_node. rewrite Hn. simpl. frames.
  rewrite Hf. simpl. now rewrite Hr.
Qed.

(** *** Traces only grow *)

Lemma run_Interrupt_trace n (d : Any) state r oe r' :
  run_Interrupt n d state r = (oe, r') -> exists new, trace r' = trace r ++ new.
Proof.
  unfold run_Interrupt. destruct (Interrupt (mgr r) n d state) as [[m' sent] e].
  intros Hr. invert Hr. simpl. eauto.
Qed.

Lemma run_WaitForResume_trace r res r' :
  run_WaitForResume r = (res, r') -> trace r' = trace r.
Proof.
  unfold run_WaitForResume.
  destruct (WaitForResume (mgr r) (ctl r)) as [[res0 m'] rest].
  intros Hr. now invert Hr.
Qed.

Lemma route_trace (es : list (@ConditionalEdge T Any W)) currentNode state r x r' :
  route es currentNode state r = (x, r') -> exists new, trace r' = trace r ++ new.
Proof.
  rewrite route_refines. unfold route_spec. intros Hr.
  repeat break_match; invert Hr; simpl; eauto.
  all: exists []; now rewrite app_nil_r.
Qed.

(** A node that exists is called, with the state that came out of the
    breakpoint check, right after its start event. *)
Lemma run_node_calls g (ctx : Ctx) currentNode node state steps r :
  nodes g !! currentNode = Some node ->
  exists out r' rest,
    run_node g ctx currentNode state steps r = (out, r') /\
    trace r' = trace r
               ++ event_obs (streamer g) (node_event EventChainStart currentNode steps)
               ++ CallNode currentNode state :: rest.
Proof.
  intros Hn. unfold run_node. rewrite Hn.
  match goal with |- context [Function node ctx state ?w0] =>
    destruct (Function node ctx state w0) as [[st' e] w] end.
  set (r1 := set_world w _).
  assert (H1 : trace r1 = trace r
               ++ event_obs (streamer g) (node_event EventChainStart currentNode steps)
               ++ [CallNode currentNode state]).
  { subst r1. simpl. traces. now rewrite <- app_assoc. }
  assert (Hgrow : forall r2 new, trace r2 = trace r1 ++ new ->
            trace r2 = trace r
               ++ event_obs (streamer g) (node_event EventChainStart currentNode steps)
               ++ CallNode currentNode state :: new).
  { intros r2 new ->. rewrite H1. now rewrite <- !app_assoc. }
  clearbody r1.
  destruct e as [e|].
  - destruct (IsInterruptError e).
    + destruct (GetInterruptData e) as [data ok].
      destruct (run_Interrupt currentNode data st' r1) as [e1 r2] eqn:Hint.
      apply run_Interrupt_trace in Hint. destruct Hint as [new Hnew].
      destruct e1; [do 3 eexists; split; [reflexivity|eauto]|].
      destruct (run_WaitForResume r2) as [res r3] eqn:Hw.
      apply run_WaitForResume_trace in Hw. rewrite <- Hw in Hnew.
      destruct res as [[st'' [e2|]]|]; do 3 eexists; (split; [reflexivity|eauto]).
    + do 3 eexists; split; [reflexivity|]. apply Hgrow. now rewrite app_nil_r.
  - match goal with |- context [route ?es ?c ?s ?x] =>
      destruct (route es c s x) as [[nx|out1] r5] eqn:Hr end;
    apply route_trace in Hr; destruct Hr as [new Hnew];
    revert Hnew; traces; rewrite <- !app_assoc; intros Hnew;
    do 3 eexists; (split; [reflexivity|eauto]).
Qed.

(** *** The interrupt a step function asks for *)

(** The pause that follows an interrupt error: the [InterruptInfo] holds
    the payload of the error and the state the step function returned
    with it; after the resume the engine stays on the node. *)
Lemma run_node_interrupted g (ctx : Ctx) currentNode node state steps r
    state1 err w db sb state2 m' rest :
  nodes g !! currentNode = Some node ->
  Function node ctx state (world r) = ((state1, Some err), w) ->
  IsInterruptError err = true ->
  interrupted (mgr r) = false ->
  json_Marshal (fst (GetInterruptData err)) = inl db ->
  json_Marshal state1 = inl sb ->
  WaitForResume (set_interrupted true (mgr r)) (ctl r)
    = (Some (state2, @None (@error Any)), m', rest) ->
  run_node g ctx currentNode state steps r
  = (Continue currentNode state2 steps,
     {| mgr := m'; world := w; ctl := rest;
        trace := trace r
                 ++ event_obs (streamer g) (node_event EventChainStart currentNode steps)
                 ++ [CallNode currentNode state;
                     SendInterrupt {| NodeName := currentNode; Data := db; State := sb |}] |}).
Proof.
  intros Hn Hf He Hi Hd Hs Hw. unfold run_node. rewrite Hn. simpl. frames.
  rewrite Hf. simpl. rewrite He.
  destruct (GetInterruptData err) as [data ok]. simpl in Hd.
  unfold run_Interrupt. simpl. frames.
  rewrite (Interrupt_sends _ _ _ _ db sb) by assumption.
  unfold run_WaitForResume. simpl. frames. rewrite Hw.
  traces. now rewrite <- !app_assoc.
Qed.


(** *** [Interrupt] and the flag *)


(** A visit to a node whose breakpoint is set, made while the manager is
    not interrupted and with a state that serializes.  The
    [InterruptInfo] goes out first, whatever comes after it; what comes
    after it is decided by the way the wait ends. *)
Lemma visit_at_breakpoint g (ctx : Ctx) currentNode node state steps r db sb :
  (steps < recursionLimit g)%Z ->
  currentNode <> END ->
  nodes g !! currentNode = Some node ->
  HasBreakpoint (mgr r) currentNode = true ->
  interrupted (mgr r) = false ->
  json_Marshal (zero : Any) = inl db ->
  json_Marshal state = inl sb ->
  exists out r' before after,
    iteration g ctx currentNode state steps r = (out, r') /\
    trace r' = trace r ++ before ++ after /\
    count is_interrupt before = 1%nat /\ count is_call before = O /\
    match WaitForResume (set_interrupted true (mgr r)) (ctl r) with
    | (Some (state', None), _, _) =>
        before = SendInterrupt {| NodeName := currentNode; Data := db; State := sb |}
                 :: event_obs (streamer g) (node_event EventChainStart currentNode steps) /\
        exists later, after = CallNode currentNode state' :: later
    | (Some (_, Some cause), _, _) =>
        before = [SendInterrupt {| NodeName := currentNode; Data := db; State := sb |}] /\
        after = [] /\
        out = Return zero (Some (ErrWaitResume cause))
    | (None, _, _) =>
        before = [SendInterrupt {| NodeName := currentNode; Data := db; State := sb |}] /\
        after = [] /\
        out = Blocked
    end.
Proof.
  intros Hl Hne Hn Hb Hi Hd Hs.
  rewrite iteration_body by assumption.
  unfold check_breakpoint. rewrite Hb.
  unfold run_Interrupt. rewrite (Interrupt_sends _ _ _ _ db sb) by assumption.
  unfold run_WaitForResume. simpl.
  destruct (WaitForResume (set_interrupted true (mgr r)) (ctl r))
    as [[[[state' [cause|]]|] m'] rest] eqn:Hw.
  - do 2 eexists.
    exists [SendInterrupt {| NodeName := currentNode; Data := db; State := sb |}], [].
    repeat split.
  - destruct (run_node_calls g ctx currentNode node state' steps
                {| mgr := m'; world := world r; ctl := rest;
                   trace := trace r ++ [SendInterrupt
                     {| NodeName := currentNode; Data := db; State := sb |}] |} Hn)
      as (out & r' & later & Hrun & Htr).
    exists out, r'.
    exists (SendInterrupt {| NodeName := currentNode; Data := db; State := sb |}
            :: event_obs (streamer g) (node_event EventChainStart currentNode steps)).
    exists (CallNode currentNode state' :: later).
    split; [exact Hrun|]. split; [|split; [|split; [|split; [reflexivity|]]]].
    + rewrite Htr. simpl. now rewrite <- !app_assoc.
    + simpl. now rewrite !count_event_obs by reflexivity.
    + simpl. now rewrite !count_event_obs by reflexivity.
    + now exists later.
  - do 2 eexists.
    exists [SendInterrupt {| NodeName := currentNode; Data := db; State := sb |}], [].
    repeat split.
Qed.


(** *** Breakpoints *)

(** C5, amended.  A visit to a node with a breakpoint set, made while
    the manager is not interrupted and with a state that serializes:
    exactly one [InterruptInfo] is sent, with a nil payload and the
    current state, however the wait that follows ends.  If the engine is
    resumed, the node's step function is called with the resumed state,
    after that emission and with no other in between; if the wait is
    cancelled or never answered, that emission is all the visit adds and
    the step function is not called.  If the manager is already
    interrupted the visit sends nothing and [Invoke] gives up.  A
    breakpoint that was removed is not set, and a visit to a node without
    a breakpoint calls the step function with the current state and no
    emission before it. *)
Theorem C5_breakpoint_visit g (ctx : Ctx) currentNode node state steps r :
  (steps < recursionLimit g)%Z ->
  currentNode <> END ->
  nodes g !! currentNode = Some node ->
  (HasBreakpoint (mgr r) currentNode = true ->
   interrupted (mgr r) = false ->
   forall db sb,
     json_Marshal (zero : Any) = inl db ->
     json_Marshal state = inl sb ->
     exists out r' before after,
       iteration g ctx currentNode state steps r = (out, r') /\
       trace r' = trace r ++ before ++ after /\
       count is_interrupt before = 1%nat /\ count is_call before = O /\
       match WaitForResume (set_interrupted true (mgr r)) (ctl r) with
       | (Some (state', None), _, _) =>
           before = SendInterrupt {| NodeName := currentNode; Data := db; State := sb |}
                    :: event_obs (streamer g) (node_event EventChainStart currentNode steps) /\
           exists later, after = CallNode currentNode state' :: later
       | (Some (_, Some cause), _, _) =>
           before = [SendInterrupt {| NodeName := currentNode; Data := db; State := sb |}] /\
           after = [] /\
           out = Return zero (Some (ErrWaitResume cause))
       | (None, _, _) =>
           before = [SendInterrupt {| NodeName := currentNode; Data := db; State := sb |}] /\
           after = [] /\
           out = Blocked
       end) /\
  (HasBreakpoint (mgr r) currentNode = true ->
   interrupted (mgr r) = true ->
   iteration g ctx currentNode state steps r
   = (Return zero (Some (ErrTriggerBreakpoint ErrAlreadyInterrupted)), r)) /\
  (forall m, HasBreakpoint (RemoveBreakpoint m currentNode) currentNode = false) /\
  (HasBreakpoint (mgr r) currentNode = false ->
   exists out r' later before,
     iteration g ctx currentNode state steps r = (out, r') /\
     trace r' = trace r ++ before ++ CallNode currentNode state :: later /\
     before = event_obs (streamer g) (node_event EventChainStart currentNode steps) /\
     count is_interrupt before = O /\ count is_call before = O).
Proof.
  intros Hl Hne Hn. split; [|split; [|split]].
  - intros Hb Hi db sb Hd Hs.
    now apply (visit_at_breakpoint g ctx currentNode node state steps r db sb).
  - intros Hb Hi. rewrite iteration_body by assumption.
    now rewrite check_breakpoint_busy by assumption.
  - intros m. apply HasBreakpoint_Remove.
  - intros Hb. rewrite iteration_body by assumption.
    rewrite check_breakpoint_none by assumption.
    destruct (run_node_calls g ctx currentNode node state steps r Hn)
      as (out & r' & later & Hrun & Htr).
    exists out, r', later. eexists. split; [exact Hrun|].
    split; [exact Htr|]. split; [reflexivity|].
    now rewrite !count_event_obs by reflexivity.
Qed.

(** *** Scenario A *)

Lemma count_is_stream (mode : StreamMode) (t : list (@obs T)) :
  count (is_stream mode) t = length (streamed mode t).
Proof.
  induction t as [|o t IH]; simpl; [reflexivity|].
  destruct o; simpl; try exact IH.
  destruct (String.eqb (Mode e) mode); simpl; now rewrite IH.
Qed.

Lemma loop_S fuel g (ctx : Ctx) currentNode state steps r :
  loop (S fuel) g ctx currentNode state steps r
  = match iteration g ctx currentNode state steps r with
    | (Continue currentNode state steps, r) => loop fuel g ctx currentNode state steps r
    | out => out
    end.
Proof. reflexivity. Qed.

Lemma HasBreakpoint_New n : HasBreakpoint NewInterruptManager n = false.
Proof. unfold HasBreakpoint. simpl. apply bool_decide_eq_false. apply not_elem_of_empty. Qed.

(** C8.  The graph with the single node [calc], the edge [calc -> END]
    and the entry point [calc], built on a fresh [StateGraph] with any
    stream configuration; the step function returns a state whose
    [Result] is 55.  The graph compiles, and [Invoke] returns that state
    with a nil error.  Each emission is gated on its mode: when
    [StreamValues] is active exactly two such events are sent, the
    initial and the final state, and none otherwise; when
    [StreamUpdates] is active exactly one such event is sent, the new
    state, and none otherwise.  The step function ran once. *)
Theorem C8_scenario_A (Result : T -> Z) (config : StreamConfig)
    (fn : Ctx -> T -> W -> (T * option (@error Any)) * W) (router : @Router T Any W)
    (ctx : Ctx) state w script state' w' w'' :
  let g := SetEntryPoint
             (AddConditionalEdges
                (AddNode (SetStreamConfig NewStateGraph config) "calc" fn)
                "calc" router None)
             "calc" in
  END <> "calc" ->
  fn ctx state w = ((state', None), w') ->
  Result state' = 55%Z ->
  router state' w' = (([END], None), w'') ->
  Compile g = (Some {| graph := g |}, None) /\
  exists run,
    Invoke {| graph := g |} ctx state w script = (Returned state' None, run) /\
    Result state' = 55%Z /\
    streamed StreamValues (trace run)
    = (if hasMode_in (Modes config) StreamValues then [state; state'] else []) /\
    streamed StreamUpdates (trace run)
    = (if hasMode_in (Modes config) StreamUpdates then [state'] else []) /\
    count (is_stream StreamValues) (trace run)
    = (if hasMode_in (Modes config) StreamValues then 2 else 0)%nat /\
    count (is_stream StreamUpdates) (trace run)
    = (if hasMode_in (Modes config) StreamUpdates then 1 else 0)%nat /\
    count is_call (trace run) = 1%nat.
Proof.
  intros g Hend Hfn Hres Hrouter. split; [reflexivity|].
  assert (Hne : "calc" <> END) by congruence.
  set (s := NewStreamer (Modes config)).
  set (r0 := EmitEvent s (graph_event EventChainStart)
               (EmitValue s state (initial_run g w script))).
  set (r1 := set_world w'' (send (CallRouter "calc" state')
               (EmitUpdate s state'
                  (EmitEvent s (node_event EventChainEnd "calc" 0)
                     (set_world w'
                        (send (CallNode "calc" state)
                           (EmitEvent s (node_event EventChainStart "calc" 0) r0))))))).
  assert (H0 : iteration g ctx "calc" state 0 r0 = (Continue END state' 1, r1)).
  { rewrite iteration_body by (simpl; lia || exact Hne).
    rewrite check_breakpoint_none
      by (subst r0; frames; apply HasBreakpoint_New).
    eapply (run_node_routes g ctx "calc" {| Name := "calc"; Function := fn |}).
    - apply lookup_insert_eq.
    - subst r0. frames. exact Hfn.
    - simpl. frames. simpl. rewrite Hrouter. reflexivity. }
  assert (H1 : iteration g ctx END state' 1 r1 = (Break state', r1)).
  { apply iteration_END. simpl. lia. }
  eexists. unfold Invoke, Invoke_fuel, enough_fuel.
  change (graph {| graph := g |}) with g.
  change (recursionLimit g) with 25%Z. change (entryPoint g) with "calc".
  change (streamer g) with s. change (interruptManager g) with (@NewInterruptManager).
  change (Z.to_nat 25) with 25%nat.
  change (S (25 + length script)) with (S (S (24 + length script))).
  change (EmitEvent s _ (EmitValue s state _)) with r0.
  rewrite loop_S, H0, loop_S, H1.
  split; [reflexivity|]. split; [exact Hres|].
  rewrite !count_is_stream.
  subst r1 r0. traces. rewrite !count_app, !streamed_app. simpl.
  rewrite !count_event_obs, !count_value_obs, !count_update_obs by reflexivity.
  rewrite !streamed_event_obs, !streamed_value_obs, !streamed_update_obs,
    !streamed_values_update_obs, !streamed_updates_value_obs.
  unfold hasMode. simpl.
  destruct (hasMode_in (Modes config) StreamValues),
           (hasMode_in (Modes config) StreamUpdates); repeat split; reflexivity.
Qed.

(** *** The helper for step functions *)

(** C9.  The helper returns the zero value of the state type and an
    [InterruptError] that carries the data it was given, whatever the
    context and the data; the engine recognises that error and reads
    the data back.  So a step function that interrupts through the
    helper returns the zero state whatever state it received, which is
    not its input unless the input is the zero state. *)
Theorem C9_Interrupt_helper_returns_zero (ctx : Ctx) (data : Any) :
  @Interrupt_helper T Any Ctx _ ctx data = (zero, Some (InterruptError data)) /\
  (forall state err,
      @Interrupt_helper T Any Ctx _ ctx data = (state, Some err) ->
      IsInterruptError err = true /\ GetInterruptData err = (data, true)) /\
  (forall (input : T) (w : W),
      let step := fun (c : Ctx) (_ : T) (w : W) => (@Interrupt_helper T Any Ctx _ c data, w) in
      fst (fst (step ctx input w)) = zero /\
      (input <> zero -> fst (fst (step ctx input w)) <> input)).
Proof.
  split; [reflexivity|]. split.
  - intros state err Hh. unfold Interrupt_helper in Hh. invert Hh. now split.
  - intros input w. simpl. split; [reflexivity|]. intros Hne Heq. now apply Hne.
Qed.

(** ** Further properties of the code *)

(** *** The breakpoint set *)

(** X1.  [AddBreakpoint] and [RemoveBreakpoint] act on the one name they
    are given: afterwards [HasBreakpoint] answers yes, respectively no, for
    that name and as before for every other.  Both are idempotent, a
    removal undoes the addition of a name that was not set, and neither
    touches the interrupted flag. *)
Theorem X1_breakpoint_set m n n' :
  HasBreakpoint (AddBreakpoint m n) n' = (bool_decide (n = n') || HasBreakpoint m n') /\
  HasBreakpoint (RemoveBreakpoint m n) n' = (negb (bool_decide (n = n')) && HasBreakpoint m n') /\
  AddBreakpoint (AddBreakpoint m n) n = AddBreakpoint m n /\
  RemoveBreakpoint (RemoveBreakpoint m n) n = RemoveBreakpoint m n /\
  (HasBreakpoint m n = false -> RemoveBreakpoint (AddBreakpoint m n) n = m) /\
  interrupted (AddBreakpoint m n) = interrupted m /\
  interrupted (RemoveBreakpoint m n) = interrupted m.
Proof.
  unfold HasBreakpoint, AddBreakpoint, RemoveBreakpoint. simpl.
  split; [|split; [|split; [|split; [|split; [|split; reflexivity]]]]].
  - destruct (bool_decide_reflect (n = n')) as [->|Hne]; simpl.
    + apply bool_decide_eq_true. apply elem_of_union. left. now apply elem_of_singleton.
    + apply bool_decide_ext. rewrite elem_of_union, elem_of_singleton.
      intuition congruence.
  - destruct (bool_decide_reflect (n = n')) as [->|Hne]; simpl.
    + apply bool_decide_eq_false. rewrite elem_of_difference, elem_of_singleton. tauto.
    + apply bool_decide_ext. rewrite elem_of_difference, elem_of_singleton.
      intuition congruence.
  - f_equal. apply set_eq. intros x. rewrite !elem_of_union. tauto.
  - f_equal. apply set_eq. intros x. rewrite !elem_of_difference. tauto.
  - intros Hn. apply bool_decide_eq_false in Hn. destruct m as [flag bps]. simpl in *.
    f_equal. apply set_eq. intros x.
    rewrite elem_of_difference, elem_of_union, elem_of_singleton.
    split; [tauto|]. intros Hx. split; [tauto|]. intros ->. now apply Hn.
Qed.

(** *** The rendezvous *)

(** X2.  [Interrupt] and [Resume] are the two halves of one handshake.  A
    [Resume] after an [Interrupt] that went through hands over its state and
    gives back the manager as it was before the [Interrupt]; a second
    [Resume] then fails with the not-interrupted error, as does any
    [Resume] on an idle manager, and leaves the manager as it is. *)
Theorem X2_interrupt_resume_handshake m n (d : Any) state state' m' info :
  Interrupt m n d state = (m', Some info, @None (@error Any)) ->
  Resume m' state' = (m, Some state', @None (@error Any)) /\
  Resume m state' = (m, None, Some (@ErrNotInterrupted Any)) /\
  Interrupt m' n d state = (m', None, Some ErrAlreadyInterrupted).
Proof.
  intros Hi. apply Interrupt_ok in Hi. destruct Hi as (Hidle & -> & _).
  destruct m as [flag bps]. simpl in Hidle. subst flag.
  repeat split.
Qed.

(** *** The streamer *)

(** X3.  A mode is active exactly when it is among the modes the streamer
    was made with, however often it is listed.  An emission in a mode that
    is not listed leaves the run as it is; in a listed mode it sends one
    event and nothing else changes. *)
Theorem X3_emission_gated_on_listed_modes (s : Streamer) (mode : StreamMode) state evt r :
  (hasMode s mode = true <-> mode ∈ modes s) /\
  (StreamValues ∉ modes s -> EmitValue s state r = r) /\
  (StreamValues ∈ modes s ->
   EmitValue s state r = send (SendStream {| Mode := StreamValues; Payload := state |}) r) /\
  (StreamUpdates ∉ modes s -> EmitUpdate s state r = r) /\
  (StreamUpdates ∈ modes s ->
   EmitUpdate s state r = send (SendStream {| Mode := StreamUpdates; Payload := state |}) r) /\
  (StreamDebug ∉ modes s -> EmitEvent s evt r = r) /\
  (StreamDebug ∈ modes s -> EmitEvent s evt r = send (SendEvent evt) r).
Proof.
  assert (Hmode : forall md, hasMode s md = true <-> md ∈ modes s).
  { intros md. unfold hasMode. induction (modes s) as [|m0 ms IH]; simpl.
    - split; [discriminate|]. intros Hin. now apply elem_of_nil in Hin.
    - rewrite elem_of_cons. destruct (String.eqb_spec m0 md) as [->|Hne].
      + split; auto.
      + rewrite IH. split; [auto|]. intros [->|Hin]; [congruence|exact Hin]. }
  assert (Hoff : forall md, md ∉ modes s -> hasMode s md = false).
  { intros md Hn. destruct (hasMode s md) eqn:Hh; [|reflexivity].
    apply Hmode in Hh. contradiction. }
  split; [apply Hmode|].
  unfold EmitValue, EmitUpdate, EmitEvent.
  repeat split; intros Hin;
    first [ apply Hoff in Hin | apply Hmode in Hin ]; now rewrite Hin.
Qed.

(** *** The builder *)

(** X4.  [AddNode] registers the function under its name and nowhere else;
    a second [AddNode] under the same name replaces the first, and the
    order of two additions under different names does not matter.  The
    node stored under a name carries that name. *)
Theorem X4_AddNode_last_write_wins g n n'
    (fn fn' : Ctx -> T -> W -> (T * option (@error Any)) * W) :
  nodes (AddNode g n fn) !! n'
  = (if decide (n = n') then Some {| Name := n; Function := fn |} else nodes g !! n') /\
  AddNode (AddNode g n fn') n fn = AddNode g n fn /\
  (n <> n' -> AddNode (AddNode g n fn) n' fn' = AddNode (AddNode g n' fn') n fn) /\
  ((forall k node, nodes g !! k = Some node -> Name node = k) ->
   forall k node, nodes (AddNode g n fn) !! k = Some node -> Name node = k).
Proof.
  split; [|split; [|split]].
  - unfold AddNode. simpl. apply lookup_insert.
  - unfold AddNode. simpl. now rewrite insert_insert_eq.
  - intros Hne. unfold AddNode. simpl. f_equal. now apply insert_insert_ne.
  - intros Hinv k node. unfold AddNode. simpl. rewrite lookup_insert.
    destruct (decide (n = k)) as [->|Hne]; [|apply Hinv].
    intros Hk. now invert Hk.
Qed.

Lemma route_app (es1 es2 : list (@ConditionalEdge T Any W)) currentNode state r :
  route (es1 ++ es2) currentNode state r
  = if List.existsb (fun e => String.eqb (From e) currentNode) es1
    then route es1 currentNode state r
    else route es2 currentNode state r.
Proof.
  induction es1 as [|e es1 IH]; simpl; [reflexivity|].
  destruct (String.eqb (From e) currentNode); simpl; [reflexivity|exact IH].
Qed.

Lemma route_unmatched (es : list (@ConditionalEdge T Any W)) currentNode state r :
  List.existsb (fun e => String.eqb (From e) currentNode) es = false ->
  route es currentNode state r
  = (inr (Return zero (Some (ErrNoOutgoingEdge currentNode))), r).
Proof.
  induction es as [|e es IH]; simpl; [reflexivity|].
  destruct (String.eqb (From e) currentNode); simpl; [discriminate|exact IH].
Qed.

(** X5.  An edge added with [AddConditionalEdges] goes to the end of the
    list.  It changes nothing for the routing from a node that already has
    an edge, nor for the routing from any other node than its own; it is
    the edge used from its node when that node had none. *)
Theorem X5_added_edge_never_overrides g from (router : @Router T Any W) mapping
    currentNode state r :
  edges (AddConditionalEdges g from router mapping)
  = edges g ++ [{| From := from; Route := router; Mapping := mapping |}] /\
  ((exists e, e ∈ edges g /\ From e = currentNode) ->
   route (edges (AddConditionalEdges g from router mapping)) currentNode state r
   = route (edges g) currentNode state r) /\
  (from <> currentNode ->
   route (edges (AddConditionalEdges g from router mapping)) currentNode state r
   = route (edges g) currentNode state r) /\
  (Forall (fun e => From e <> currentNode) (edges g) ->
   route (edges (AddConditionalEdges g currentNode router mapping)) currentNode state r
   = route [{| From := currentNode; Route := router; Mapping := mapping |}]
       currentNode state r).
Proof.
  split; [reflexivity|]. simpl. rewrite !route_app.
  split; [|split].
  - intros (e & Hin & Hfrom).
    assert (Hex : List.existsb (fun e => String.eqb (From e) currentNode) (edges g) = true).
    { apply existsb_exists. exists e. split; [now apply list_elem_of_In|].
      now apply String.eqb_eq. }
    now rewrite Hex.
  - intros Hne.
    destruct (List.existsb _ (edges g)) eqn:Hex; [reflexivity|].
    simpl. apply String.eqb_neq in Hne. rewrite Hne.
    symmetry. now apply route_unmatched.
  - intros Hnone.
    assert (Hex : List.existsb (fun e => String.eqb (From e) currentNode) (edges g) = false).
    { induction Hnone as [|e es Hne _ IH]; simpl; [reflexivity|].
      apply String.eqb_neq in Hne. now rewrite Hne. }
    now rewrite Hex.
Qed.

(** X6.  How the routing step fails.  When no edge leaves the current node
    the engine gives up with the no-outgoing-edge error and no router was
    called.  Otherwise only the router of the first such edge is called:
    its error, if any, is wrapped whatever names came with it, and an empty
    list of names is the invalid-output error, mapping or not. *)
Theorem X6_routing_failures (pre post : list (@ConditionalEdge T Any W)) edge
    currentNode state r names oerr w :
  Forall (fun e => From e <> currentNode) pre ->
  From edge = currentNode ->
  Route edge state (world r) = ((names, oerr), w) ->
  route pre currentNode state r
  = (inr (Return zero (Some (ErrNoOutgoingEdge currentNode))), r) /\
  (forall cause,
      oerr = Some cause ->
      route (pre ++ edge :: post) currentNode state r
      = (inr (Return zero (Some (ErrInRouter currentNode cause))),
         set_world w (send (CallRouter currentNode state) r))) /\
  (oerr = None -> names = [] ->
   route (pre ++ edge :: post) currentNode state r
   = (inr (Return zero (Some ErrInvalidRouterOutput)),
      set_world w (send (CallRouter currentNode state) r))).
Proof.
  intros Hpre Hfrom Hroute.
  assert (Hex : List.existsb (fun e => String.eqb (From e) currentNode) pre = false).
  { induction Hpre as [|e es Hne _ IH]; simpl; [reflexivity|].
    apply String.eqb_neq in Hne. now rewrite Hne. }
  split; [now apply route_unmatched|].
  rewrite route_app, Hex. simpl.
  apply String.eqb_eq in Hfrom. rewrite Hfrom, Hroute.
  split.
  - intros cause ->. reflexivity.
  - intros -> ->. reflexivity.
Qed.

(** *** What a run puts on the trace *)

Lemma adds_refl (s : Streamer) (t : list (@obs T)) : adds s t t 0 0.
Proof. exists []. rewrite app_nil_r. repeat split; auto. Qed.

Lemma adds_trans (s : Streamer) (t1 t2 t3 : list (@obs T)) c1 k1 c2 k2 :
  adds s t1 t2 c1 k1 -> adds s t2 t3 c2 k2 -> adds s t1 t3 (c1 + c2) (k1 + k2).
Proof.
  intros (n1 & -> & F1 & C1 & K1) (n2 & -> & F2 & C2 & K2).
  exists (n1 ++ n2). rewrite app_assoc, !count_app.
  repeat split; [now apply Forall_app_2 | lia | lia].
Qed.

Lemma adds_weaken (s : Streamer) (t t' : list (@obs T)) c k c' k' :
  adds s t t' c k -> (c <= c')%nat -> (k <= k')%nat -> adds s t t' c' k'.
Proof.
  intros (n & -> & F & C & K) Hc Hk. exists n. repeat split; auto; lia.
Qed.

Lemma adds_event (s : Streamer) type node steps r :
  adds s (trace r) (trace (EmitEvent s (node_event type node steps) r)) 0 0.
Proof.
  exists (event_obs s (node_event type node steps)).
  rewrite trace_EmitEvent, !count_event_obs by reflexivity.
  repeat split; auto. unfold event_obs.
  destruct (hasMode s StreamDebug) eqn:Hd; constructor; [|constructor].
  simpl. eauto.
Qed.

Lemma adds_update (s : Streamer) state r :
  adds s (trace r) (trace (EmitUpdate s state r)) 0 0.
Proof.
  exists (update_obs s state).
  rewrite trace_EmitUpdate, !count_update_obs by reflexivity.
  repeat split; auto. unfold update_obs.
  destruct (hasMode s StreamUpdates) eqn:Hd; constructor; [|constructor].
  simpl. auto.
Qed.

Lemma adds_Interrupt (s : Streamer) n (d : Any) state r oe r' :
  run_Interrupt n d state r = (oe, r') -> adds s (trace r) (trace r') 0 0.
Proof.
  unfold run_Interrupt. destruct (Interrupt (mgr r) n d state) as [[m' sent] e].
  intros Hr. invert Hr. simpl. eexists. split; [reflexivity|].
  destruct sent; simpl; (split; [repeat constructor | split; lia]).
Qed.

Lemma adds_WaitForResume (s : Streamer) r res r' :
  run_WaitForResume r = (res, r') -> adds s (trace r) (trace r') 0 0.
Proof.
  intros Hw. apply run_WaitForResume_trace in Hw. rewrite Hw. apply adds_refl.
Qed.

Lemma adds_route (s : Streamer) (es : list (@ConditionalEdge T Any W))
    currentNode state r x r' :
  route es currentNode state r = (x, r') -> adds s (trace r) (trace r') 0 1.
Proof.
  rewrite route_refines. unfold route_spec. intros Hr.
  assert (Hcall : forall w, adds s (trace r)
            (trace (set_world w (send (CallRouter currentNode state) r))) 0 1).
  { intros w. exists [CallRouter currentNode state]. simpl.
    split; [reflexivity|]. split; [repeat constructor | split; lia]. }
  repeat break_match; invert Hr; auto.
  all: eapply adds_weaken; [apply adds_refl | lia | lia].
Qed.

Lemma adds_check_breakpoint (s : Streamer) currentNode state r
    (x : T + @flow T Any) r' :
  check_breakpoint currentNode state r = (x, r') -> adds s (trace r) (trace r') 0 0.
Proof.
  unfold check_breakpoint. intros Hc.
  destruct (HasBreakpoint (mgr r) currentNode); [|invert Hc; apply adds_refl].
  destruct (run_Interrupt currentNode zero state r) as [e r1] eqn:Hi.
  apply (adds_Interrupt s) in Hi.
  destruct e; [now invert Hc|].
  destruct (run_WaitForResume r1) as [res r2] eqn:Hw.
  apply (adds_WaitForResume s) in Hw.
  pose proof (adds_trans _ _ _ _ _ _ _ _ Hi Hw) as Hboth.
  repeat break_match; invert Hc; exact Hboth.
Qed.

Lemma adds_run_node g (ctx : Ctx) currentNode state steps r out r' :
  run_node g ctx currentNode state steps r = (out, r') ->
  adds (streamer g) (trace r) (trace r') 1 1 /\
  (forall next state', out = Continue next state' steps ->
                       adds (streamer g) (trace r) (trace r') 1 0).
Proof.
  unfold run_node. intros Hi.
  destruct (nodes g !! currentNode) as [node|].
  2:{ invert Hi. split; [|discriminate].
      eapply adds_weaken; [apply adds_refl | lia | lia]. }
  pose proof (adds_event (streamer g) EventChainStart currentNode steps r) as H1.
  set (r1 := EmitEvent _ _ r) in *.
  assert (H2 : adds (streamer g) (trace r) (trace (send (CallNode currentNode state) r1)) 1 0).
  { apply (adds_trans _ _ _ _ 0 0 1 0 H1).
    exists [CallNode currentNode state]. split; [reflexivity|].
    split; [repeat constructor | split; simpl; lia]. }
  match type of Hi with context [Function node ctx state ?w0] =>
    destruct (Function node ctx state w0) as [[st' e] w] end.
  set (r2 := set_world w _) in *.
  change (trace (send (CallNode currentNode state) r1)) with (trace r2) in H2.
  clearbody r2. clear H1 r1.
  destruct e as [e|].
  - assert (Hdone : forall r3, adds (streamer g) (trace r2) (trace r3) 0 0 ->
              adds (streamer g) (trace r) (trace r3) 1 1 /\
              adds (streamer g) (trace r) (trace r3) 1 0).
    { intros r3 H3. pose proof (adds_trans _ _ _ _ _ _ _ _ H2 H3) as H.
      split; (eapply adds_weaken; [exact H | lia | lia]). }
    destruct (IsInterruptError e).
    + destruct (GetInterruptData e) as [data ok].
      destruct (run_Interrupt currentNode data st' r2) as [e1 r3] eqn:Hint.
      apply (adds_Interrupt (streamer g)) in Hint.
      destruct e1.
      * invert Hi. destruct (Hdone _ Hint). split; [assumption|discriminate].
      * destruct (run_WaitForResume r3) as [res r4] eqn:Hw.
        apply (adds_WaitForResume (streamer g)) in Hw.
        pose proof (adds_trans _ _ _ _ _ _ _ _ Hint Hw) as H34.
        destruct (Hdone _ H34).
        destruct res as [[st'' [e2|]]|]; invert Hi; split; auto; discriminate.
    + invert Hi. destruct (Hdone _ (adds_refl _ _)). split; [assumption|discriminate].
  - pose proof (adds_event (streamer g) EventChainEnd currentNode steps r2) as H3.
    set (r3 := EmitEvent _ _ r2) in *.
    pose proof (adds_update (streamer g) st' r3) as H4.
    set (r4 := EmitUpdate _ _ r3) in *.
    destruct (route (edges g) currentNode st' r4) as [[nx|out1] r5] eqn:Hr.
    + apply (adds_route (streamer g)) in Hr. invert Hi. split.
      * pose proof (adds_trans _ _ _ _ _ _ _ _ H2
                      (adds_trans _ _ _ _ _ _ _ _ H3
                         (adds_trans _ _ _ _ _ _ _ _ H4 Hr))) as H.
        eapply adds_weaken; [exact H | lia | lia].
      * intros next state' Heq. invert Heq. lia.
    + pose proof (route_stops _ _ _ _ _ _ Hr) as Hstop.
      apply (adds_route (streamer g)) in Hr. invert Hi. split.
      * pose proof (adds_trans _ _ _ _ _ _ _ _ H2
                      (adds_trans _ _ _ _ _ _ _ _ H3
                         (adds_trans _ _ _ _ _ _ _ _ H4 Hr))) as H.
        eapply adds_weaken; [exact H | lia | lia].
      * intros next state' ->. contradiction.
Qed.

Lemma adds_iteration g (ctx : Ctx) currentNode state steps r out r' :
  iteration g ctx currentNode state steps r = (out, r') ->
  adds (streamer g) (trace r) (trace r') 1 1 /\
  (forall next state', out = Continue next state' steps ->
                       adds (streamer g) (trace r) (trace r') 1 0) /\
  ((recursionLimit g <= steps)%Z -> r' = r).
Proof.
  unfold iteration. intros Hi.
  assert (Hsame : adds (streamer g) (trace r) (trace r) 1 1)
    by (eapply adds_weaken; [apply adds_refl | lia | lia]).
  destruct (recursionLimit g <=? steps)%Z eqn:Hlim.
  { invert Hi. split; [exact Hsame|]. split; [discriminate|reflexivity]. }
  apply Z.leb_gt in Hlim.
  destruct (String.eqb currentNode END).
  { invert Hi. split; [exact Hsame|]. split; [discriminate|reflexivity]. }
  destruct (check_breakpoint currentNode state r) as [[st|out1] r1] eqn:Hb.
  - apply (adds_check_breakpoint (streamer g)) in Hb.
    apply adds_run_node in Hi. destruct Hi as [Hall Hretry].
    split; [|split; [|lia]].
    + apply (adds_trans _ _ _ _ _ _ _ _ Hb Hall).
    + intros next state' Heq. apply (adds_trans _ _ _ _ _ _ _ _ Hb (Hretry _ _ Heq)).
  - pose proof (check_breakpoint_stops _ _ _ _ _ Hb) as Hstop.
    apply (adds_check_breakpoint (streamer g)) in Hb. invert Hi.
    split; [|split; [|lia]].
    + eapply adds_weaken; [exact Hb | lia | lia].
    + intros next state' ->. contradiction.
Qed.

(** The whole loop: at most one call of a step function for each step left
    below the limit and each action left in the script, and at most one
    call of a router for each step left below the limit. *)
Lemma adds_loop fuel g (ctx : Ctx) currentNode state steps r out r' :
  loop fuel g ctx currentNode state steps r = (out, r') ->
  adds (streamer g) (trace r) (trace r')
    (Z.to_nat (recursionLimit g - steps) + length (ctl r))
    (Z.to_nat (recursionLimit g - steps)).
Proof.
  revert currentNode state steps r.
  induction fuel as [|fuel IH]; intros currentNode state steps r Hl; simpl in Hl.
  - invert Hl. eapply adds_weaken; [apply adds_refl | lia | lia].
  - destruct (iteration g ctx currentNode state steps r) as [o r1] eqn:Hi.
    pose proof (adds_iteration _ _ _ _ _ _ _ _ Hi) as (Hall & Hretry & Hlimit).
    destruct (Z_lt_le_dec steps (recursionLimit g)) as [Hlt|Hge].
    2:{ specialize (Hlimit Hge). subst r1.
        rewrite iteration_limit in Hi by exact Hge. invert Hi. invert Hl.
        eapply adds_weaken; [apply adds_refl | lia | lia]. }
    destruct o as [c s n| s | s e | |];
      try (invert Hl; eapply adds_weaken; [exact Hall | lia | lia]).
    apply IH in Hl.
    apply iteration_Continue in Hi. destruct Hi as [_ [[-> Hc]|(-> & -> & Hc)]].
    + pose proof (adds_trans _ _ _ _ _ _ _ _ Hall Hl) as H.
      eapply adds_weaken; [exact H | lia | lia].
    + pose proof (adds_trans _ _ _ _ _ _ _ _ (Hretry _ _ eq_refl) Hl) as H.
      eapply adds_weaken; [exact H | lia | lia].
Qed.

(** The trace of a run: the two opening emissions, what the loop adds, and
    the two closing emissions when the run succeeds. *)
Lemma Invoke_shape (rs : @RunnableState T Any Ctx W) (ctx : Ctx) state w script :
  exists middle,
    trace (snd (Invoke rs ctx state w script))
    = value_obs (streamer (graph rs)) state
      ++ event_obs (streamer (graph rs)) (graph_event EventChainStart)
      ++ middle
      ++ closing (streamer (graph rs)) (fst (Invoke rs ctx state w script)) /\
    Forall (loop_obs (streamer (graph rs))) middle /\
    (count is_call middle <= Z.to_nat (recursionLimit (graph rs)) + length script)%nat /\
    (count is_route middle <= Z.to_nat (recursionLimit (graph rs)))%nat.
Proof.
  unfold Invoke, Invoke_fuel.
  match goal with |- context [loop ?f ?g ctx ?c ?s ?n ?r0] =>
    destruct (loop f g ctx c s n r0) as [out r1] eqn:Hl;
    assert (Hc : ctl r0 = script) by (frames; reflexivity);
    assert (Ht : trace r0 = value_obs (streamer (graph rs)) state
                            ++ event_obs (streamer (graph rs)) (graph_event EventChainStart))
      by (traces; reflexivity)
  end.
  pose proof (loop_ends _ _ _ _ _ _ _ _ _ Hl) as Hends.
  apply adds_loop in Hl. rewrite Hc, Ht, Z.sub_0_r in Hl.
  destruct Hl as (middle & Hr1 & Hall & Hcalls & Hroutes).
  exists middle. split; [|auto].
  destruct out as [c s n| s | s [e|] | |]; simpl in *; try contradiction;
    traces; rewrite Hr1; rewrite <- ?app_assoc, ?app_nil_r; reflexivity.
Qed.

Lemma count_closing (p : @obs T -> bool) (s : Streamer) (out : @outcome T Any) :
  (forall e, p (SendEvent e) = false) -> (forall e, p (SendStream e) = false) ->
  count p (closing s out) = O.
Proof.
  intros He Hs. unfold closing. destruct out as [st [e|]| | |]; try reflexivity.
  now rewrite count_app, count_value_obs, count_event_obs.
Qed.

(** X7.  The recursion limit bounds the work of a run: [Invoke] calls
    routers at most as often as the limit says, and step functions at most
    that often plus once for every action of the other party, which is
    what a retry after an interrupt costs.  With a limit that is not
    positive nothing is called. *)
Theorem X7_calls_bounded_by_limit (rs : @RunnableState T Any Ctx W) (ctx : Ctx)
    state w script :
  (count is_route (trace (snd (Invoke rs ctx state w script)))
   <= Z.to_nat (recursionLimit (graph rs)))%nat /\
  (count is_call (trace (snd (Invoke rs ctx state w script)))
   <= Z.to_nat (recursionLimit (graph rs)) + length script)%nat.
Proof.
  destruct (Invoke_shape rs ctx state w script) as (middle & -> & _ & Hcalls & Hroutes).
  rewrite !count_app, !count_value_obs, !count_event_obs, !count_closing by reflexivity.
  lia.
Qed.

Lemma streamed_values_loop_obs (s : Streamer) (l : list (@obs T)) :
  Forall (loop_obs s) l -> streamed StreamValues l = [].
Proof.
  induction 1 as [|o l Ho _ IH]; simpl; [reflexivity|].
  destruct o as [e| | | |]; try exact IH.
  destruct Ho as [_ Hm]. rewrite Hm. exact IH.
Qed.

(** X8.  What a subscriber of [StreamValues] gets from a run: the input
    state first and, when [Invoke] returns without error, the returned
    state last; nothing in between, however many nodes ran, and nothing
    at all when the mode is not active. *)
Theorem X8_values_are_first_and_last_state (rs : @RunnableState T Any Ctx W) (ctx : Ctx)
    state w script :
  streamed StreamValues (trace (snd (Invoke rs ctx state w script)))
  = if hasMode (streamer (graph rs)) StreamValues
    then state :: match fst (Invoke rs ctx state w script) with
                  | Returned final None => [final]
                  | _ => []
                  end
    else [].
Proof.
  destruct (Invoke_shape rs ctx state w script) as (middle & -> & Hall & _).
  rewrite !streamed_app, streamed_event_obs, streamed_value_obs.
  rewrite (streamed_values_loop_obs _ _ Hall).
  destruct (fst (Invoke rs ctx state w script)) as [st [e|]| | |]; simpl;
    rewrite ?streamed_app, ?streamed_event_obs, ?streamed_value_obs, ?app_nil_r;
    now destruct (hasMode (streamer (graph rs)) StreamValues).
Qed.

Lemma elem_of_value_obs (s : Streamer) state (o : @obs T) :
  o ∈ value_obs s state ->
  hasMode s StreamValues = true /\
  o = SendStream {| Mode := StreamValues; Payload := state |}.
Proof.
  unfold value_obs. destruct (hasMode s StreamValues).
  - intros Ho. apply list_elem_of_singleton in Ho. auto.
  - intros Ho. now apply elem_of_nil in Ho.
Qed.

Lemma elem_of_event_obs (s : Streamer) evt (o : @obs T) :
  o ∈ event_obs s evt -> hasMode s StreamDebug = true /\ o = SendEvent evt.
Proof.
  unfold event_obs. destruct (hasMode s StreamDebug).
  - intros Ho. apply list_elem_of_singleton in Ho. auto.
  - intros Ho. now apply elem_of_nil in Ho.
Qed.

(** X9.  [Invoke] sends nothing in a mode that is not active, and of the
    stream modes it only ever uses [StreamValues] and [StreamUpdates]:
    a subscriber of [StreamCustom] or [StreamMessages] gets nothing from
    the engine, whatever the configuration.  Events go out in
    [StreamDebug] mode only. *)
Theorem X9_only_active_modes (rs : @RunnableState T Any Ctx W) (ctx : Ctx)
    state w script :
  (forall e, SendStream e ∈ trace (snd (Invoke rs ctx state w script)) ->
             hasMode (streamer (graph rs)) (Mode e) = true /\
             (Mode e = StreamValues \/ Mode e = StreamUpdates)) /\
  (forall e, SendEvent e ∈ trace (snd (Invoke rs ctx state w script)) ->
             hasMode (streamer (graph rs)) StreamDebug = true).
Proof.
  destruct (Invoke_shape rs ctx state w script) as (middle & -> & Hall & _).
  rewrite Forall_forall in Hall.
  assert (Hclosing : forall o, o ∈ closing (streamer (graph rs))
                                     (fst (Invoke rs ctx state w script)) ->
            exists st, o ∈ value_obs (streamer (graph rs)) st
                       \/ o ∈ event_obs (streamer (graph rs)) (graph_event EventChainEnd)).
  { intros o. unfold closing.
    destruct (fst (Invoke rs ctx state w script)) as [st [e|]| | |];
      try (intros Ho; now apply elem_of_nil in Ho).
    rewrite elem_of_app. eauto. }
  split; intros e; rewrite !elem_of_app; intros [Ho|[Ho|[Ho|Ho]]].
  - apply elem_of_value_obs in Ho. destruct Ho as [Hm Ho]. invert Ho. auto.
  - apply elem_of_event_obs in Ho. destruct Ho as [_ Ho]. discriminate.
  - apply Hall in Ho. destruct Ho as [Hm Ho]. rewrite Ho. auto.
  - apply Hclosing in Ho. destruct Ho as [st [Ho|Ho]].
    + apply elem_of_value_obs in Ho. destruct Ho as [Hm Ho]. invert Ho. auto.
    + apply elem_of_event_obs in Ho. destruct Ho as [_ Ho]. discriminate.
  - apply elem_of_value_obs in Ho. destruct Ho as [_ Ho]. discriminate.
  - apply elem_of_event_obs in Ho. tauto.
  - apply Hall in Ho. destruct Ho as [Hm _]. exact Hm.
  - apply Hclosing in Ho. destruct Ho as [st [Ho|Ho]].
    + apply elem_of_value_obs in Ho. destruct Ho as [_ Ho]. discriminate.
    + apply elem_of_event_obs in Ho. tauto.
Qed.

(** X10.  The end event of the run, the one named after the graph, is sent
    exactly when [Invoke] returns without error (and [StreamDebug] is
    active): a run that fails sends its start event and no end event. *)
Theorem X10_end_event_only_on_success (rs : @RunnableState T Any Ctx W) (ctx : Ctx)
    state w script :
  SendEvent (graph_event EventChainEnd) ∈ trace (snd (Invoke rs ctx state w script))
  <-> hasMode (streamer (graph rs)) StreamDebug = true /\
      exists final, fst (Invoke rs ctx state w script) = Returned final None.
Proof.
  destruct (Invoke_shape rs ctx state w script) as (middle & -> & Hall & _).
  rewrite Forall_forall in Hall. rewrite !elem_of_app. split.
  - intros [Ho|[Ho|[Ho|Ho]]].
    + apply elem_of_value_obs in Ho. destruct Ho as [_ Ho]. discriminate.
    + apply elem_of_event_obs in Ho. destruct Ho as [_ Ho]. discriminate.
    + apply Hall in Ho. destruct Ho as [_ (type & node & steps & Ho)]. discriminate.
    + unfold closing in Ho.
      destruct (fst (Invoke rs ctx state w script)) as [st [e|]| | |];
        try (now apply elem_of_nil in Ho).
      apply elem_of_app in Ho. destruct Ho as [Ho|Ho].
      * apply elem_of_value_obs in Ho. destruct Ho as [_ Ho]. discriminate.
      * apply elem_of_event_obs in Ho. destruct Ho as [Hd _]. eauto.
  - intros [Hd [final Hf]]. right. right. right. rewrite Hf. simpl.
    apply elem_of_app. right. unfold event_obs. rewrite Hd.
    now apply list_elem_of_singleton.
Qed.

(** *** The flag of the manager over a run *)







(** *** Single passes *)

Lemma existsb_unmatched (pre : list (@ConditionalEdge T Any W)) currentNode :
  Forall (fun e => From e <> currentNode) pre ->
  List.existsb (fun e => String.eqb (From e) currentNode) pre = false.
Proof.
  induction 1 as [|e es Hne _ IH]; simpl; [reflexivity|].
  apply String.eqb_neq in Hne. now rewrite Hne.
Qed.

Lemma route_first (pre post : list (@ConditionalEdge T Any W)) edge
    currentNode state r first others w :
  Forall (fun e => From e <> currentNode) pre ->
  From edge = currentNode ->
  Route edge state (world r) = ((first :: others, None), w) ->
  route (pre ++ edge :: post) currentNode state r
  = (inl (apply_mapping (Mapping edge) first),
     set_world w (send (CallRouter currentNode state) r)).
Proof.
  intros Hpre Hfrom Hroute.
  rewrite route_app, existsb_unmatched by exact Hpre. simpl.
  apply String.eqb_eq in Hfrom. rewrite Hfrom, Hroute. simpl.
  now rewrite mapped_names.
Qed.

(** A pass without breakpoint in which the node and its router succeed. *)
Lemma iteration_success g (ctx : Ctx) currentNode node state steps r state' w
    pre edge post first others w' :
  (steps < recursionLimit g)%Z ->
  currentNode <> END ->
  HasBreakpoint (mgr r) currentNode = false ->
  nodes g !! currentNode = Some node ->
  Function node ctx state (world r) = ((state', None), w) ->
  edges g = pre ++ edge :: post ->
  Forall (fun e => From e <> currentNode) pre ->
  From edge = currentNode ->
  Route edge state' w = ((first :: others, None), w') ->
  exists r',
    iteration g ctx currentNode state steps r
    = (Continue (apply_mapping (Mapping edge) first) state' (steps + 1), r') /\
    mgr r' = mgr r /\ world r' = w' /\ ctl r' = ctl r /\
    trace r' = trace r
               ++ event_obs (streamer g) (node_event EventChainStart currentNode steps)
               ++ [CallNode currentNode state]
               ++ event_obs (streamer g) (node_event EventChainEnd currentNode steps)
               ++ update_obs (streamer g) state'
               ++ [CallRouter currentNode state'].
Proof.
  intros Hl Hne Hb Hn Hf He Hpre Hfrom Hr.
  eexists. split.
  - rewrite iteration_body by assumption. rewrite check_breakpoint_none by assumption.
    eapply run_node_routes; [exact Hn | exact Hf |].
    rewrite He. eapply route_first; [exact Hpre | exact Hfrom |].
    frames. simpl. frames. exact Hr.
  - simpl. frames. simpl. frames. simpl. frames.
    repeat split. traces. now rewrite <- !app_assoc.
Qed.

(** X13.  A name that was never added as a node is found out only when the
    engine gets there: [Compile] accepts any entry point that is not empty,
    and [Invoke] then gives up in its first pass with the node-not-found
    error for that name, no step function called.  The breakpoint check
    comes before the lookup: a breakpoint on such a name still pauses the
    engine, and the error follows the resume. *)
Theorem X13_unregistered_node g (ctx : Ctx) state w script :
  entryPoint g <> "" ->
  entryPoint g <> END ->
  nodes g !! entryPoint g = None ->
  (0 < recursionLimit g)%Z ->
  Compile g = (Some {| graph := g |}, None) /\
  (HasBreakpoint (interruptManager g) (entryPoint g) = false ->
   fst (Invoke {| graph := g |} ctx state w script)
   = Returned zero (Some (ErrNodeNotFound (entryPoint g))) /\
   count is_call (trace (snd (Invoke {| graph := g |} ctx state w script))) = O) /\
  (forall r db sb state' m' rest,
      HasBreakpoint (mgr r) (entryPoint g) = true ->
      interrupted (mgr r) = false ->
      json_Marshal (zero : Any) = inl db ->
      json_Marshal state = inl sb ->
      WaitForResume (set_interrupted true (mgr r)) (ctl r)
        = (Some (state', @None (@error Any)), m', rest) ->
      iteration g ctx (entryPoint g) state 0 r
      = (Return zero (Some (ErrNodeNotFound (entryPoint g))),
         {| mgr := m'; world := world r; ctl := rest;
            trace := trace r ++ [SendInterrupt {| NodeName := entryPoint g;
                                                  Data := db; State := sb |}] |})).
Proof.
  intros Hnonempty Hne Hnone Hl. split; [|split].
  - unfold Compile. apply String.eqb_neq in Hnonempty. now rewrite Hnonempty.
  - intros Hb. unfold Invoke, Invoke_fuel, enough_fuel. simpl loop.
    change (graph {| graph := g |}) with g.
    rewrite iteration_body by assumption.
    rewrite check_breakpoint_none by (frames; exact Hb).
    unfold run_node. rewrite Hnone. simpl. split; [reflexivity|].
    traces. simpl. now rewrite !count_app, count_value_obs, count_event_obs.
  - intros r db sb state' m' rest Hb Hi Hd Hs Hw.
    rewrite iteration_body by assumption.
    rewrite (check_breakpoint_resumed _ _ _ db sb state' m' rest) by assumption.
    unfold run_node. simpl. now rewrite Hnone.
Qed.

(** X14.  An error of a step function that is not the interrupt error
    itself ends the run: the pass returns the zero state and the error
    wrapped with the name of the node.  After the call nothing more
    happens: no end event, no update, no router.  An interrupt error
    wrapped in another error is such an error. *)
Theorem X14_node_error_is_fatal g (ctx : Ctx) currentNode node state steps r
    state' err w :
  (steps < recursionLimit g)%Z ->
  currentNode <> END ->
  HasBreakpoint (mgr r) currentNode = false ->
  nodes g !! currentNode = Some node ->
  Function node ctx state (world r) = ((state', Some err), w) ->
  (forall data, err <> InterruptError data) ->
  exists r',
    iteration g ctx currentNode state steps r
    = (Return zero (Some (ErrInNode currentNode err)), r') /\
    trace r' = trace r
               ++ event_obs (streamer g) (node_event EventChainStart currentNode steps)
               ++ [CallNode currentNode state] /\
    mgr r' = mgr r /\ world r' = w /\ ctl r' = ctl r.
Proof.
  intros Hl Hne Hb Hn Hf Herr.
  assert (Hnot : IsInterruptError err = false).
  { destruct err; try reflexivity. now destruct (Herr data). }
  eexists. split.
  - rewrite iteration_body by assumption. rewrite check_breakpoint_none by assumption.
    unfold run_node. rewrite Hn. simpl. frames. rewrite Hf. simpl. rewrite Hnot.
    reflexivity.
  - simpl. frames. repeat split. traces. now rewrite <- !app_assoc.
Qed.

(** X15.  The order of a successful pass: the start event of the node, the
    call of its step function with the current state, its end event, the
    update with the new state, then the router of the first edge from the
    node, called with the new state and the environment the step function
    left.  The pass counts one step and leaves the manager and the script
    alone. *)
Theorem X15_order_of_a_pass g (ctx : Ctx) currentNode node state steps r state' w
    pre edge post first others w' :
  (steps < recursionLimit g)%Z ->
  currentNode <> END ->
  HasBreakpoint (mgr r) currentNode = false ->
  nodes g !! currentNode = Some node ->
  Function node ctx state (world r) = ((state', None), w) ->
  edges g = pre ++ edge :: post ->
  Forall (fun e => From e <> currentNode) pre ->
  From edge = currentNode ->
  Route edge state' w = ((first :: others, None), w') ->
  exists r',
    iteration g ctx currentNode state steps r
    = (Continue (apply_mapping (Mapping edge) first) state' (steps + 1), r') /\
    trace r' = trace r
               ++ event_obs (streamer g) (node_event EventChainStart currentNode steps)
               ++ [CallNode currentNode state]
               ++ event_obs (streamer g) (node_event EventChainEnd currentNode steps)
               ++ update_obs (streamer g) state'
               ++ [CallRouter currentNode state'] /\
    mgr r' = mgr r /\ world r' = w' /\ ctl r' = ctl r.
Proof.
  intros Hl Hne Hb Hn Hf He Hpre Hfrom Hr.
  destruct (iteration_success g ctx currentNode node state steps r state' w
              pre edge post first others w' Hl Hne Hb Hn Hf He Hpre Hfrom Hr)
    as (r' & Hi & Hm & Hw & Hc & Ht).
  exists r'. auto.
Qed.

(** *** A node that always comes back to itself *)

Lemma spin_loop g (ctx : Ctx) a node pre edge post :
  a <> END ->
  nodes g !! a = Some node ->
  (forall state w, exists state' w', Function node ctx state w = ((state', None), w')) ->
  edges g = pre ++ edge :: post ->
  Forall (fun e => From e <> a) pre ->
  From edge = a ->
  (forall state w, exists name others w',
      Route edge state w = ((name :: others, None), w') /\
      apply_mapping (Mapping edge) name = a) ->
  forall k fuel state steps r,
    Z.to_nat (recursionLimit g - steps) = k ->
    (k < fuel)%nat ->
    HasBreakpoint (mgr r) a = false ->
    exists r',
      loop fuel g ctx a state steps r
      = (Return zero (Some (ErrRecursionLimit (recursionLimit g))), r') /\
      count is_call (trace r') = (count is_call (trace r) + k)%nat /\
      count is_route (trace r') = (count is_route (trace r) + k)%nat /\
      mgr r' = mgr r /\ ctl r' = ctl r.
Proof.
  intros Hne Hn Hfn He Hpre Hfrom Hback.
  induction k as [|k IH]; intros fuel state steps r Hk Hfuel Hb;
    (destruct fuel as [|fuel]; [lia|]); rewrite loop_S.
  - rewrite iteration_limit by lia. exists r. repeat split; lia.
  - destruct (Hfn state (world r)) as (state' & w & Hf).
    destruct (Hback state' w) as (name & others & w' & Hr & Hname).
    destruct (iteration_success g ctx a node state steps r state' w
                pre edge post name others w') as (r1 & Hi & Hm & _ & Hc & Ht);
      try assumption; [lia|].
    rewrite Hi, Hname.
    destruct (IH fuel state' (steps + 1)%Z r1) as (r' & Hl & Hcalls & Hroutes & Hm' & Hc');
      [lia | lia | now rewrite Hm |].
    exists r'. split; [exact Hl|].
    rewrite Hcalls, Hroutes, Ht, Hm', Hm, Hc', Hc.
    rewrite !count_app, !count_event_obs, !count_update_obs by reflexivity.
    simpl. repeat split; lia.
Qed.

(** X16.  A graph whose entry node always succeeds and whose router always
    sends the engine back to that node: [Invoke] runs the node exactly as
    many times as the recursion limit says - not at all when the limit is
    not positive - calls the router as often, and then gives up with the
    recursion-limit error and the zero state. *)
Theorem X16_self_loop_runs_limit_times g (ctx : Ctx) node pre edge post state w script :
  entryPoint g <> END ->
  nodes g !! entryPoint g = Some node ->
  (forall state w, exists state' w', Function node ctx state w = ((state', None), w')) ->
  edges g = pre ++ edge :: post ->
  Forall (fun e => From e <> entryPoint g) pre ->
  From edge = entryPoint g ->
  (forall state w, exists name others w',
      Route edge state w = ((name :: others, None), w') /\
      apply_mapping (Mapping edge) name = entryPoint g) ->
  HasBreakpoint (interruptManager g) (entryPoint g) = false ->
  fst (Invoke {| graph := g |} ctx state w script)
  = Returned zero (Some (ErrRecursionLimit (recursionLimit g))) /\
  count is_call (trace (snd (Invoke {| graph := g |} ctx state w script)))
  = Z.to_nat (recursionLimit g) /\
  count is_route (trace (snd (Invoke {| graph := g |} ctx state w script)))
  = Z.to_nat (recursionLimit g).
Proof.
  intros Hne Hn Hfn He Hpre Hfrom Hback Hb.
  unfold Invoke, Invoke_fuel, enough_fuel.
  change (graph {| graph := g |}) with g.
  match goal with |- context [loop ?f g ctx ?c ?s ?n ?r0] =>
    destruct (spin_loop g ctx (entryPoint g) node pre edge post
                Hne Hn Hfn He Hpre Hfrom Hback
                (Z.to_nat (recursionLimit g)) f s n r0)
      as (r' & Hl & Hcalls & Hroutes & _);
      [ now rewrite Z.sub_0_r | lia | frames; exact Hb | ];
    rewrite Hl; revert Hcalls Hroutes
  end.
  traces. simpl.
  rewrite !count_app, !count_event_obs, !count_value_obs by reflexivity.
  simpl. intros -> ->. repeat split.
Qed.

(** *** Runs that never pause *)

Lemma route_quiet (es : list (@ConditionalEdge T Any W)) currentNode state r x r' :
  route es currentNode state r = (x, r') ->
  count is_interrupt (trace r') = count is_interrupt (trace r) /\
  mgr r' = mgr r /\ ctl r' = ctl r /\ x <> inr Blocked.
Proof.
  rewrite route_refines. unfold route_spec. intros Hr.
  repeat break_match; invert Hr; simpl; rewrite ?count_app; simpl;
    repeat split; try lia; discriminate.
Qed.

Lemma iteration_quiet g (ctx : Ctx) currentNode state steps r out r' :
  breakpoints (mgr r) = ∅ ->
  (forall name node c st w0 st' e w',
      nodes g !! name = Some node ->
      Function node c st w0 = ((st', Some e), w') -> IsInterruptError e = false) ->
  iteration g ctx currentNode state steps r = (out, r') ->
  count is_interrupt (trace r') = count is_interrupt (trace r) /\
  mgr r' = mgr r /\ ctl r' = ctl r /\ out <> Blocked.
Proof.
  intros Hbp Hnever. unfold iteration. intros Hi.
  destruct (recursionLimit g <=? steps)%Z; [invert Hi; repeat split; discriminate|].
  destruct (String.eqb currentNode END); [invert Hi; repeat split; discriminate|].
  rewrite check_breakpoint_none in Hi.
  2:{ unfold HasBreakpoint. rewrite Hbp. apply bool_decide_eq_false. apply not_elem_of_empty. }
  unfold run_node in Hi.
  destruct (nodes g !! currentNode) as [node|] eqn:Hn;
    [|invert Hi; repeat split; discriminate].
  match type of Hi with context [Function node ctx state ?w0] =>
    destruct (Function node ctx state w0) as [[st' e] w] eqn:Hf end.
  assert (Hcalled : forall r0 : @Run T W,
            r0 = set_world w (send (CallNode currentNode state)
                   (EmitEvent (streamer g) (node_event EventChainStart currentNode steps) r)) ->
            count is_interrupt (trace r0) = count is_interrupt (trace r) /\
            mgr r0 = mgr r /\ ctl r0 = ctl r).
  { intros r0 ->. simpl. frames. traces.
    rewrite !count_app, count_event_obs by reflexivity. simpl.
    repeat split; lia. }
  destruct e as [e|].
  - rewrite (Hnever _ _ _ _ _ _ _ _ Hn Hf) in Hi. invert Hi.
    destruct (Hcalled _ eq_refl) as (? & ? & ?). repeat split; auto; discriminate.
  - match type of Hi with context [route ?es ?c ?s ?x] =>
      destruct (route es c s x) as [[nx|out1] r5] eqn:Hr end;
      apply route_quiet in Hr; destruct Hr as (Hcount & Hm & Hc & Hnb);
      revert Hcount Hm Hc; frames; traces;
      rewrite !count_app, !count_event_obs, !count_update_obs by reflexivity;
      simpl; frames; intros Hcount Hm Hc; invert Hi;
      (repeat split; [lia | assumption | assumption |]).
    + discriminate.
    + intros ->. now apply Hnb.
Qed.

(** X20.  The pause machinery is inert unless it is used: on a graph with
    no breakpoint set and step functions that never return the interrupt
    error, [Invoke] sends no [InterruptInfo], never waits for a [Resume] -
    so it returns, whatever the other party does or fails to do - and
    leaves the manager as it found it. *)
Theorem X20_no_pause_without_breakpoints (rs : @RunnableState T Any Ctx W) (ctx : Ctx)
    state w script :
  breakpoints (interruptManager (graph rs)) = ∅ ->
  (forall name node c st w0 st' e w',
      nodes (graph rs) !! name = Some node ->
      Function node c st w0 = ((st', Some e), w') -> IsInterruptError e = false) ->
  count is_interrupt (trace (snd (Invoke rs ctx state w script))) = O /\
  mgr (snd (Invoke rs ctx state w script)) = interruptManager (graph rs) /\
  ctl (snd (Invoke rs ctx state w script)) = script /\
  exists final oerr, fst (Invoke rs ctx state w script) = Returned final oerr.
Proof.
  intros Hbp Hnever.
  assert (Hloop : forall fuel currentNode st steps r out r',
            breakpoints (mgr r) = ∅ ->
            loop fuel (graph rs) ctx currentNode st steps r = (out, r') ->
            count is_interrupt (trace r') = count is_interrupt (trace r) /\
            mgr r' = mgr r /\ ctl r' = ctl r /\ out <> Blocked).
  { induction fuel as [|fuel IH]; intros currentNode st steps r out r' Hr Hl; simpl in Hl.
    - invert Hl. repeat split; discriminate.
    - destruct (iteration (graph rs) ctx currentNode st steps r) as [o r1] eqn:Hi.
      apply iteration_quiet in Hi; [|exact Hr|exact Hnever].
      destruct Hi as (Hcount & Hm & Hc & Hnb).
      destruct o as [c s n| s | s e | |];
        try (invert Hl; repeat split; assumption).
      apply IH in Hl; [|now rewrite Hm].
      destruct Hl as (Hcount' & Hm' & Hc' & Hnb').
      repeat split; try congruence; lia. }
  pose proof (Invoke_total rs ctx state w script) as [Hfuel Hpanic].
  revert Hfuel Hpanic. unfold Invoke, Invoke_fuel.
  match goal with |- context [loop ?f ?g ctx ?c ?s ?n ?r0] =>
    destruct (loop f g ctx c s n r0) as [out r1] eqn:Hl;
    assert (H0 : count is_interrupt (trace r0) = O /\ mgr r0 = interruptManager (graph rs)
                 /\ ctl r0 = script)
  end.
  { frames. traces. simpl.
    rewrite !count_app, count_value_obs, count_event_obs by reflexivity. auto. }
  destruct H0 as (Ht0 & Hm0 & Hc0).
  apply Hloop in Hl; [|now rewrite Hm0].
  destruct Hl as (Hcount & Hm & Hc & Hnb).
  destruct out as [c s n| s | s e | |]; simpl; intros Hfuel Hpanic;
    try congruence; frames; traces;
    rewrite ?count_app, ?count_value_obs, ?count_event_obs by reflexivity;
    (repeat split; [lia | congruence | congruence | eauto]).
Qed.

End Properties.

(** ** Properties of the calculator *)

Section CalculatorProperties.

Context {float64 float32 : Type} `{Ops : Float64Ops float64 float32}.

Implicit Types (args : gmap string (value float64 float32)).

Ltac break_match_calc :=
  match goal with
  | H : context [match ?x with _ => _ end] |- _ => destruct x eqn:?
  end.

Ltac invert_calc H := inversion H; subst; clear H.

(** X17.  [square] needs the first number only: when the operation is
    [square] and [a] is a number the result is [a * a], whatever is stored
    under [b] - a number, something that is not a number, or nothing. *)
Theorem X17_square_ignores_second_number args a (anything : value float64 float32) :
  args !! "operation" = Some (Str "square") ->
  getNumber (arg args "a") = (a, None) ->
  Execute args = (Float64 (f_mul a a), None) /\
  Execute (<["b" := anything]> args) = (Float64 (f_mul a a), None) /\
  Execute (delete "b" args) = (Float64 (f_mul a a), None).
Proof.
  intros Hop Ha. unfold Execute, arg in *.
  rewrite !lookup_insert_ne, !lookup_delete_ne by discriminate.
  rewrite Hop. simpl. rewrite Ha. simpl. auto.
Qed.

(** X18.  The order in which [Execute] finds fault.  An operation that is
    missing or not a string comes first; then a first number that is not
    one, whatever the operation; then, unless the operation is [square], a
    second number that is not one; and only with both numbers accepted an
    operation that is not known.  An unknown operation with a bad number
    is therefore reported as the bad number. *)
Theorem X18_errors_in_order args :
  ((forall s, arg args "operation" <> Str s) ->
   Execute args = (Nil, Some OperationNotString)) /\
  (forall operation x cause,
      arg args "operation" = Str operation ->
      getNumber (arg args "a") = (x, Some cause) ->
      Execute args = (Nil, Some (InvalidFirst cause))) /\
  (forall operation a x cause,
      arg args "operation" = Str operation ->
      operation <> "square" ->
      getNumber (arg args "a") = (a, None) ->
      getNumber (arg args "b") = (x, Some cause) ->
      Execute args = (Nil, Some (InvalidSecond cause))) /\
  (forall operation a b,
      arg args "operation" = Str operation ->
      getNumber (arg args "a") = (a, None) ->
      getNumber (arg args "b") = (b, None) ->
      ~ In operation ["square"; "add"; "subtract"; "multiply"; "divide"] ->
      Execute args = (Nil, Some (UnknownOperation operation))).
Proof.
  unfold Execute. repeat split.
  - intros Hop. destruct (arg args "operation") as [| | | |s|]; try reflexivity.
    now destruct (Hop s).
  - intros operation x cause -> ->. reflexivity.
  - intros operation a x cause -> Hsq -> ->.
    apply String.eqb_neq in Hsq. now rewrite Hsq.
  - intros operation a b -> -> -> Hnot. simpl in Hnot.
    destruct (String.eqb_spec operation "square"); [intuition congruence|].
    destruct (String.eqb_spec operation "add"); [intuition congruence|].
    destruct (String.eqb_spec operation "subtract"); [intuition congruence|].
    destruct (String.eqb_spec operation "multiply"); [intuition congruence|].
    destruct (String.eqb_spec operation "divide"); [intuition congruence|].
    reflexivity.
Qed.

(** X19.  With both numbers accepted the four binary operations return
    the sum, the difference, the product and the quotient; a division
    whose second number compares equal to zero is an error instead.
    Whatever the arguments, [Execute] returns either a [float64] and no
    error, or [nil] and an error. *)
Theorem X19_binary_operations args a b :
  getNumber (arg args "a") = (a, None) ->
  getNumber (arg args "b") = (b, None) ->
  (arg args "operation" = Str "add" -> Execute args = (Float64 (f_add a b), None)) /\
  (arg args "operation" = Str "subtract" -> Execute args = (Float64 (f_sub a b), None)) /\
  (arg args "operation" = Str "multiply" -> Execute args = (Float64 (f_mul a b), None)) /\
  (arg args "operation" = Str "divide" ->
   Execute args = if f_is_zero b then (Nil, Some DivisionByZero)
                  else (Float64 (f_div a b), None)) /\
  (forall args' v oerr,
      Execute args' = (v, oerr) ->
      (oerr = None /\ exists x, v = Float64 x) \/ (v = Nil /\ oerr <> None)).
Proof.
  intros Ha Hb. unfold Execute. rewrite Ha, Hb.
  split; [|split; [|split; [|split]]].
  - intros ->. reflexivity.
  - intros ->. reflexivity.
  - intros ->. reflexivity.
  - intros ->. simpl. now destruct (f_is_zero b).
  - intros args' v oerr He.
    repeat break_match_calc; invert_calc He; eauto; right; split; auto; discriminate.
Qed.

End CalculatorProperties.

(** ** The properties on the concrete graphs *)

Module Witnesses.

Import Examples.

(** C1 fails on the code.  The node [ask] interrupts through the helper
    on its first call; [Invoke] is entered with a state whose [Result] is
    7.  The [InterruptInfo] that goes out holds the payload, but its
    state is the encoding of the zero state the helper returned, not of
    the state the step function was called with. *)
Theorem C1_interrupt_info_holds_returned_state :
  let run := snd (Invoke (runnable asking) tt seven O [CtlResume seven]) in
  exists info,
    filter (fun o => is_interrupt o = true) (trace run) = [SendInterrupt info] /\
    NodeName info = "ask" /\
    inl (Data info) = json_Marshal (Some "approve?") /\
    inl (State info) = json_Marshal (zero : main_State) /\
    inl (State info) <> json_Marshal seven /\
    In (CallNode "ask" seven) (trace run).
Proof.
  eexists. split; [vm_compute; reflexivity|].
  repeat split; try (vm_compute; reflexivity).
  - vm_compute. discriminate.
  - vm_compute. tauto.
Qed.

(** C6 fails on the code in its last part.  An idle manager is asked to
    interrupt with a state that does not encode (its [Result] is NaN): the
    error comes back, nothing was sent, and the flag is up, because it was
    raised before the encoding.  The first part holds: a manager that is
    already interrupted answers with the error and is left as it was. *)
Theorem C6_flag_raised_before_encoding :
  interrupted NewInterruptManager = false /\
  json_Marshal not_a_number = inr "json: unsupported value: NaN" /\
  Interrupt NewInterruptManager "b" (None : option string) not_a_number
  = ({| interrupted := true; breakpoints := ∅ |}, None,
     Some (ErrOther "json: unsupported value: NaN")) /\
  Interrupt {| interrupted := true; breakpoints := ∅ |} "b" (None : option string) seven
  = ({| interrupted := true; breakpoints := ∅ |}, None, Some ErrAlreadyInterrupted).
Proof.
  split; [reflexivity|]. split; [reflexivity|]. split.
  - unfold Interrupt. simpl. reflexivity.
  - now apply Interrupt_busy.
Qed.

Lemma C2_witness :
  loop 1 (SetRecursionLimit asking 1) tt END seven 1 (initial_run asking O [])
  = (Return zero (Some (ErrRecursionLimit 1)), initial_run asking O []) /\
  exists run,
    Invoke (runnable (SetRecursionLimit asking 0)) tt seven O []
    = (Returned zero (Some (ErrRecursionLimit 0)), run) /\
    count is_call (trace run) = O.
Proof.
  split.
  - apply (proj1 (C2_recursion_limit_checked_first
                    (runnable (SetRecursionLimit asking 1)) tt)).
    simpl. lia.
  - destruct (proj2 (C2_recursion_limit_checked_first
                       (runnable (SetRecursionLimit asking 0)) tt) seven O [])
      as (run & Hrun & _ & Hcalls & _).
    + simpl. lia.
    + exists run. split; [exact Hrun | exact Hcalls].
Defined.

Lemma C3_witness :
  route [edge_z; edge_a; edge_a'] "a" seven (initial_run looping O [])
  = (inl "b", set_world O (send (CallRouter "a" seven) (initial_run looping O []))).
Proof.
  apply (proj1 (C3_first_edge_first_candidate
                  [edge_z] [edge_a'] edge_a "a" seven (initial_run looping O [])
                  "x" ["y"] O
                  ltac:(repeat constructor; intros Hx; discriminate Hx)
                  eq_refl eq_refl)).
Defined.



(** C5 fails on the code.  A first [Invoke] of [looping] is cancelled
    while it waits at the breakpoint of [b]; the manager stays
    interrupted.  The next [Invoke] of the same graph reaches [b], whose
    breakpoint is still set, in its first pass: no [InterruptInfo] is
    sent, the step function does not run, and [Invoke] gives up with
    the breakpoint error. *)
Lemma C5_counterexample :
  let second := Invoke (runnable looping_again) tt seven O [CtlResume seven] in
  fst cancelled = Returned zero (Some (ErrWaitResume (ErrOther "context canceled"))) /\
  entryPoint looping_again = "b" /\
  HasBreakpoint (interruptManager looping_again) "b" = true /\
  iteration looping_again tt "b" seven 0 (initial_run looping_again O [CtlResume seven])
  = (Return zero (Some (ErrTriggerBreakpoint ErrAlreadyInterrupted)),
     initial_run looping_again O [CtlResume seven]) /\
  fst second = Returned zero (Some (ErrTriggerBreakpoint ErrAlreadyInterrupted)) /\
  count is_interrupt (trace (snd second)) = O /\
  count is_interrupt (trace (snd second)) <> 1%nat /\
  count is_call (trace (snd second)) = O.
Proof.
  vm_compute. repeat split; try reflexivity. discriminate.
Qed.

Lemma C5_witness :
  (exists out run before later,
      iteration looping tt "b" seven 0 (initial_run looping O [CtlResume three]) = (out, run) /\
      trace run = [] ++ before ++ CallNode "b" three :: later /\
      count is_interrupt before = 1%nat /\ count is_call before = O) /\
  (exists run before,
      iteration looping tt "b" seven 0 (initial_run looping O [CtlCancel "context canceled"])
      = (Return zero (Some (ErrWaitResume (ErrOther "context canceled"))), run) /\
      trace run = [] ++ before ++ [] /\
      count is_interrupt before = 1%nat) /\
  (exists run before,
      iteration looping tt "b" seven 0 (initial_run looping O []) = (Blocked, run) /\
      trace run = [] ++ before ++ [] /\
      count is_interrupt before = 1%nat) /\
  iteration looping_again tt "b" seven 0 (initial_run looping_again O [])
  = (Return zero (Some (ErrTriggerBreakpoint ErrAlreadyInterrupted)),
     initial_run looping_again O []) /\
  (exists out run later before,
      iteration (Graph_RemoveBreakpoint looping "b") tt "b" seven 0
        (initial_run (Graph_RemoveBreakpoint looping "b") O []) = (out, run) /\
      trace run = [] ++ before ++ CallNode "b" seven :: later /\
      count is_interrupt before = O).
Proof.
  split; [|split; [|split; [|split]]].
  - destruct (C5_breakpoint_visit looping tt "b" {| Name := "b"; Function := bump |}
                seven 0 (initial_run looping O [CtlResume three]))
      as (Hset & _); [reflexivity | intros Hx; discriminate Hx | reflexivity |].
    destruct (Hset eq_refl eq_refl
                (String.list_byte_of_string "null") (String.list_byte_of_string "7")
                eq_refl eq_refl)
      as (out & run & before & after & Hrun & Htrace & Hone & Hnone & Hwait).
    simpl in Hwait. destruct Hwait as (_ & later & Hafter).
    exists out, run, before, later. rewrite <- Hafter. auto.
  - destruct (C5_breakpoint_visit looping tt "b" {| Name := "b"; Function := bump |}
                seven 0 (initial_run looping O [CtlCancel "context canceled"]))
      as (Hset & _); [reflexivity | intros Hx; discriminate Hx | reflexivity |].
    destruct (Hset eq_refl eq_refl
                (String.list_byte_of_string "null") (String.list_byte_of_string "7")
                eq_refl eq_refl)
      as (out & run & before & after & Hrun & Htrace & Hone & Hnone & Hwait).
    simpl in Hwait. destruct Hwait as (_ & Hafter & Hout).
    exists run, before. subst out after. split; [exact Hrun|]. auto.
  - destruct (C5_breakpoint_visit looping tt "b" {| Name := "b"; Function := bump |}
                seven 0 (initial_run looping O []))
      as (Hset & _); [reflexivity | intros Hx; discriminate Hx | reflexivity |].
    destruct (Hset eq_refl eq_refl
                (String.list_byte_of_string "null") (String.list_byte_of_string "7")
                eq_refl eq_refl)
      as (out & run & before & after & Hrun & Htrace & Hone & Hnone & Hwait).
    simpl in Hwait. destruct Hwait as (_ & Hafter & Hout).
    exists run, before. subst out after. split; [exact Hrun|]. auto.
  - destruct (C5_breakpoint_visit looping_again tt "b" {| Name := "b"; Function := bump |}
                seven 0 (initial_run looping_again O []))
      as (_ & Hbusy & _); [reflexivity | intros Hx; discriminate Hx | reflexivity |].
    apply Hbusy; reflexivity.
  - destruct (C5_breakpoint_visit (Graph_RemoveBreakpoint looping "b") tt "b"
                {| Name := "b"; Function := bump |}
                seven 0 (initial_run (Graph_RemoveBreakpoint looping "b") O []))
      as (_ & _ & _ & Hnone); [reflexivity | intros Hx; discriminate Hx | reflexivity |].
    destruct (Hnone eq_refl)
      as (out & run & later & before & Hrun & Htrace & _ & Hcount & _).
    exists out, run, later, before. auto.
Defined.


Lemma C8_witness :
  exists run,
    Invoke (runnable (scenarioA [StreamValues; StreamUpdates])) tt seven O []
    = (Returned (with_Result seven (Num 55)) None, run) /\
    count (is_stream StreamValues) (trace run) = 2%nat /\
    count (is_stream StreamUpdates) (trace run) = 1%nat.
Proof.
  destruct (C8_scenario_A result_of
              {| Modes := [StreamValues; StreamUpdates]; BufferSize := 100 |}
              calc (to END) tt seven O [] (with_Result seven (Num 55)) 1%nat 1%nat)
    as (_ & run & Hrun & _ & _ & _ & Hvalues & Hupdates & _);
    [intros Hx; discriminate Hx | reflexivity | reflexivity | reflexivity |].
  exists run. split; [exact Hrun|]. split; [exact Hvalues | exact Hupdates].
Defined.

Lemma C9_witness :
  fst (@Interrupt_helper main_State (option string) unit _ tt (Some "approve?")) = zero /\
  fst (@Interrupt_helper main_State (option string) unit _ tt (Some "approve?")) <> seven.
Proof.
  destruct (C9_Interrupt_helper_returns_zero (T := main_State) (W := Calls)
              tt (Some "approve?")) as (_ & _ & Hstep).
  destruct (Hstep seven O) as [Hzero Hother].
  split; [exact Hzero|]. apply Hother. intros Hx. discriminate Hx.
Defined.

Lemma C10_witness :
  exists run,
    Invoke (runnable (SetEntryPoint asking END)) tt seven O [] = (Returned seven None, run) /\
    streamed StreamValues (trace run) = [seven; seven] /\
    count is_call (trace run) = O.
Proof.
  destruct (C10_entry_point_END (runnable (SetEntryPoint asking END)) tt seven O [])
    as (run & Hrun & _ & Hvalues & Hcalls & _); [reflexivity | reflexivity |].
  exists run. split; [exact Hrun|]. split; [exact Hvalues | exact Hcalls].
Defined.


(** *** The further properties *)

Lemma X1_witness :
  RemoveBreakpoint (AddBreakpoint NewInterruptManager "b") "b" = NewInterruptManager /\
  HasBreakpoint (AddBreakpoint NewInterruptManager "b") "b" = true.
Proof.
  destruct (X1_breakpoint_set NewInterruptManager "b" "b")
    as (Hadd & _ & _ & _ & Hundo & _).
  split; [apply Hundo; reflexivity | exact Hadd].
Defined.

Lemma X2_witness :
  Resume {| interrupted := true; breakpoints := ∅ |} seven
  = (NewInterruptManager, Some seven, @None (@error (option string))).
Proof.
  refine (proj1 (X2_interrupt_resume_handshake
                   NewInterruptManager "b" (None : option string) seven seven
                   {| interrupted := true; breakpoints := ∅ |}
                   {| NodeName := "b";
                      Data := String.list_byte_of_string "null";
                      State := String.list_byte_of_string "7" |} _)).
  reflexivity.
Defined.

Lemma X3_witness :
  hasMode (NewStreamer [StreamValues; StreamValues]) StreamValues = true /\
  EmitUpdate (NewStreamer [StreamValues; StreamValues]) seven (initial_run asking O [])
  = initial_run asking O [].
Proof.
  destruct (X3_emission_gated_on_listed_modes
              (NewStreamer [StreamValues; StreamValues]) StreamValues seven
              (graph_event EventChainStart) (initial_run asking O []))
    as (Hmode & _ & _ & Hoff & _).
  split.
  - apply Hmode. simpl. apply elem_of_cons. now left.
  - apply Hoff. simpl. intros Hin.
    apply elem_of_cons in Hin. destruct Hin as [Hx|Hin]; [discriminate Hx|].
    apply elem_of_cons in Hin. destruct Hin as [Hx|Hin]; [discriminate Hx|].
    now apply elem_of_nil in Hin.
Defined.

Lemma X4_witness :
  AddNode (AddNode asking "a" bump) "b" calc = AddNode (AddNode asking "b" calc) "a" bump.
Proof.
  destruct (X4_AddNode_last_write_wins asking "a" "b" bump calc) as (_ & _ & Hswap & _).
  apply Hswap. intros Hx. discriminate Hx.
Defined.

Lemma X5_witness :
  route (edges (AddConditionalEdges looping "b" (to "elsewhere") None)) "b" seven
    (initial_run looping O [])
  = route (edges looping) "b" seven (initial_run looping O []).
Proof.
  destruct (X5_added_edge_never_overrides looping "b" (to "elsewhere") None "b" seven
              (initial_run looping O [])) as (_ & Hkept & _).
  apply Hkept. exists {| From := "b"; Route := until_nine; Mapping := None |}.
  split; [|reflexivity]. simpl. apply elem_of_cons. now left.
Defined.

Lemma X6_witness :
  route [edge_z; edge_a; edge_a'] "b" seven (initial_run looping O [])
  = (inr (Return zero (Some (ErrNoOutgoingEdge "b"))), initial_run looping O []) /\
  route [edge_z; {| From := "a"; Route := candidates []; Mapping := Some renaming |}; edge_a']
    "a" seven (initial_run looping O [])
  = (inr (Return zero (Some ErrInvalidRouterOutput)),
     set_world O (send (CallRouter "a" seven) (initial_run looping O []))).
Proof.
  split.
  - refine (proj1 (X6_routing_failures [edge_z; edge_a; edge_a'] []
                     {| From := "b"; Route := to "c"; Mapping := None |}
                     "b" seven (initial_run looping O []) ["c"] None O _ _ _));
      [repeat constructor; intros Hx; discriminate Hx | reflexivity | reflexivity].
  - refine (proj2 (proj2 (X6_routing_failures [edge_z] [edge_a']
                     {| From := "a"; Route := candidates []; Mapping := Some renaming |}
                     "a" seven (initial_run looping O []) [] None O _ _ _)) _ _);
      [repeat constructor; intros Hx; discriminate Hx | reflexivity | reflexivity
      | reflexivity | reflexivity].
Defined.

Lemma X9_witness :
  hasMode (streamer (scenarioA [StreamValues; StreamUpdates])) StreamUpdates = true.
Proof.
  refine (proj1 (proj1 (X9_only_active_modes
                          (runnable (scenarioA [StreamValues; StreamUpdates]))
                          tt seven O [])
                   {| Mode := StreamUpdates; Payload := with_Result seven (Num 55) |} _)).
  apply list_elem_of_In. vm_compute. right. right. left. reflexivity.
Defined.

Lemma X10_witness :
  SendEvent (graph_event EventChainEnd)
  ∈ trace (snd (Invoke (runnable (scenarioA [StreamDebug])) tt seven O [])).
Proof.
  apply (proj2 (X10_end_event_only_on_success
                  (runnable (scenarioA [StreamDebug])) tt seven O [])).
  split; [reflexivity|]. exists (with_Result seven (Num 55)). reflexivity.
Defined.


Lemma X13_witness :
  fst (Invoke (runnable dangling) tt seven O [])
  = Returned zero (Some (ErrNodeNotFound "missing")).
Proof.
  destruct (X13_unregistered_node dangling tt seven O []) as (_ & Hplain & _);
    [intros Hx; discriminate Hx | intros Hx; discriminate Hx | reflexivity | reflexivity |].
  apply Hplain. reflexivity.
Defined.

Lemma X14_witness :
  exists run,
    iteration dangling tt "a" not_a_number 0 (initial_run dangling O [])
    = (Return zero (Some (ErrInNode "a" (ErrOther "not a number"))), run) /\
    trace run = [CallNode "a" not_a_number].
Proof.
  destruct (X14_node_error_is_fatal dangling tt "a" {| Name := "a"; Function := bump |}
              not_a_number 0 (initial_run dangling O [])
              not_a_number (ErrOther "not a number") 1%nat)
    as (run & Hrun & Htrace & _);
    [reflexivity | intros Hx; discriminate Hx | reflexivity | reflexivity | reflexivity
    | intros data Hx; discriminate Hx |].
  exists run. split; [exact Hrun | exact Htrace].
Defined.

Lemma X15_witness :
  exists run,
    iteration (scenarioA [StreamUpdates]) tt "calc" seven 0
      (initial_run (scenarioA [StreamUpdates]) O [])
    = (Continue END (with_Result seven (Num 55)) 1, run) /\
    trace run = [CallNode "calc" seven;
                 SendStream {| Mode := StreamUpdates; Payload := with_Result seven (Num 55) |};
                 CallRouter "calc" (with_Result seven (Num 55))].
Proof.
  destruct (X15_order_of_a_pass (scenarioA [StreamUpdates]) tt "calc"
              {| Name := "calc"; Function := calc |} seven 0
              (initial_run (scenarioA [StreamUpdates]) O [])
              (with_Result seven (Num 55)) 1%nat
              [] {| From := "calc"; Route := to END; Mapping := None |} []
              END [] 1%nat)
    as (run & Hrun & Htrace & _);
    [reflexivity | intros Hx; discriminate Hx | reflexivity | reflexivity | reflexivity
    | reflexivity | constructor | reflexivity | reflexivity |].
  exists run. split; [exact Hrun | exact Htrace].
Defined.

Lemma X16_witness :
  fst (Invoke (runnable (spinning 3)) tt seven O [])
  = Returned zero (Some (ErrRecursionLimit 3)) /\
  count is_call (trace (snd (Invoke (runnable (spinning 3)) tt seven O []))) = 3%nat.
Proof.
  destruct (X16_self_loop_runs_limit_times (spinning 3) tt
              {| Name := "a"; Function := calc |}
              [] {| From := "a"; Route := round; Mapping := None |} []
              seven O [])
    as (Hout & Hcalls & _);
    [intros Hx; discriminate Hx | reflexivity
    | intros st w0; exists (with_Result st (Num 55)), (S w0); reflexivity
    | reflexivity | constructor | reflexivity
    | intros st w0; exists "a", ["never"], w0; split; reflexivity
    | reflexivity |].
  split; [exact Hout | exact Hcalls].
Defined.


Lemma X17_witness :
  Execute (<["b" := Other "bool"]> square_three)
  = (Float64 (PrimFloat.mul (float_of_Z 3) (float_of_Z 3)), None) /\
  Execute (delete "b" square_three)
  = (Float64 (PrimFloat.mul (float_of_Z 3) (float_of_Z 3)), None).
Proof.
  destruct (X17_square_ignores_second_number square_three (float_of_Z 3) (Other "bool"))
    as (_ & Hset & Hunset); [reflexivity | reflexivity |].
  split; [exact Hset | exact Hunset].
Defined.

Lemma X18_witness :
  Execute ({[ "operation" := Str "power"; "a" := Int 2 ]} : gmap string json_value)
  = (Nil, Some (InvalidSecond (UnsupportedType "<nil>"))).
Proof.
  refine (proj1 (proj2 (proj2 (X18_errors_in_order
            ({[ "operation" := Str "power"; "a" := Int 2 ]} : gmap string json_value))))
            "power" (float_of_Z 2) PrimFloat.zero (UnsupportedType "<nil>") _ _ _ _);
    first [ reflexivity | intros Hx; discriminate Hx ].
Defined.

Lemma X19_witness :
  Execute (divide_by (Int 1) (Float64 PrimFloat.neg_zero)) = (Nil, Some DivisionByZero) /\
  Execute (divide_by (Int 1) (Str "4"))
  = (Float64 (PrimFloat.div (float_of_Z 1) (float_of_Z 4)), None).
Proof.
  split.
  - destruct (X19_binary_operations (divide_by (Int 1) (Float64 PrimFloat.neg_zero))
                (float_of_Z 1) PrimFloat.neg_zero)
      as (_ & _ & _ & Hdiv & _); [reflexivity | reflexivity |].
    apply Hdiv. reflexivity.
  - destruct (X19_binary_operations (divide_by (Int 1) (Str "4"))
                (float_of_Z 1) (float_of_Z 4))
      as (_ & _ & _ & Hdiv & _); [reflexivity | reflexivity |].
    apply Hdiv. reflexivity.
Defined.


Lemma X20_witness :
  count is_interrupt
    (trace (snd (Invoke (runnable (scenarioA [StreamValues])) tt seven O
                   [CtlCancel "context canceled"]))) = O /\
  ctl (snd (Invoke (runnable (scenarioA [StreamValues])) tt seven O
              [CtlCancel "context canceled"])) = [CtlCancel "context canceled"].
Proof.
  destruct (X20_no_pause_without_breakpoints (runnable (scenarioA [StreamValues])) tt
              seven O [CtlCancel "context canceled"]) as (Hnone & _ & Hscript & _).
  - reflexivity.
  - intros name node c st w0 st' e w' Hnode Hcall. simpl in Hnode.
    rewrite lookup_insert in Hnode. destruct (decide ("calc" = name)) as [_|_].
    + inversion Hnode as [Hx]. subst node. simpl in Hcall. discriminate Hcall.
    + rewrite lookup_empty in Hnode. discriminate Hnode.
  - split; [exact Hnone | exact Hscript].
Defined.


End Witnesses.
